(** * Weather map visualisation: a shallow embedding of [weather.js]

    The development follows the script top-down: the grid generator,
    the [WeatherDataManager] fetch loop, the [WeatherRenderer] colour mapping
    and canvas redraw, and the small pieces of the controller.  A JavaScript
    number is modelled by the rational value of the double ([Q]), and [None]
    of type [option Q] stands for [NaN]/[undefined] where the script can
    meet one.  Where the script's arithmetic rounds, in the colour
    interpolation and in the progress percentage, every operation is followed
    by [binary64], the rounding of its exact result to the nearest double.
    The quarter-degree arithmetic of the grid and of the hover test is exact
    in doubles and is written without it; the redraw's pixel arithmetic is
    kept on the exact values of what the map widget reports. *)

From Stdlib Require Import ZArith QArith Qround Qabs String Ascii List Lia Lqa DecimalString.
From Stdlib Require Import Permutation DecimalPos DecimalN Qpower.
From stdpp Require Import base option list strings gmap.

Set Warnings "-register-all".
Open Scope Z_scope.

(* ===================================================================== *)
(** * Numbers and their text forms *)
(* ===================================================================== *)

(** Decimal text of a non-negative integer. *)
Definition show_N (n : Z) : string :=
  NilZero.string_of_uint (N.to_uint (Z.to_N n)).

(** [s.padStart(width, '0')]. *)
Definition padStart0 (width : nat) (s : string) : string :=
  String.concat "" (repeat "0"%string (width - String.length s)%nat) +:+ s.

(** [x.toFixed(4)]: the integer [n] nearest to [x * 10^4] (a tie picks the
    larger [n]), printed with four decimals; a negative [x] is printed as the
    sign followed by the text of [-x]. *)
Definition toFixed4 (x : Q) : string :=
  let neg := negb (Qle_bool 0 x) in
  let ax := if neg then Qopp x else x in
  let n := Qfloor (ax * 10000 + (1 # 2))%Q in
  (if neg then "-" else "") +:+ show_N (n / 10000) +:+ "." +:+
  padStart0 4 (show_N (n mod 10000)).

(** [Math.round(x)]: the nearest integer, a tie rounding up. *)
Definition Math_round (x : Q) : Q := inject_Z (Qfloor (x + (1 # 2))%Q).

(** [Math.floor(x)]. *)
Definition Math_floor (x : Q) : Q := inject_Z (Qfloor x).

(** Digits after the decimal point of [num / den], for [0 <= num < den]. *)
Fixpoint frac_digits (fuel : nat) (num den : Z) : string :=
  match fuel with
  | O => ""
  | S f =>
    if num =? 0 then ""
    else show_N (num * 10 / den) +:+ frac_digits f (num * 10 mod den) den
  end.

(** The text a template literal gives a number.  It is the script's
    [Number::toString] on integers and on short terminating decimals, the
    only numbers the colour table produces (integer channels and 0.8). *)
Definition show_number (q : Q) : string :=
  let a := Z.abs (Qnum q) in
  let d := Z.pos (Qden q) in
  (if Qnum q <? 0 then "-" else "") +:+ show_N (a / d) +:+
  (if a mod d =? 0 then "" else "." +:+ frac_digits 17 (a mod d) d).

(** [xs.join(sep)] on an array of numbers. *)
Definition join_numbers (sep : string) (xs : list Q) : string :=
  String.concat sep (map show_number xs).

(* ===================================================================== *)
(** * Double-precision arithmetic *)
(* ===================================================================== *)

(** The binary exponent of a positive number: the [e] with
    [2^e <= a < 2^(e+1)]. *)
Definition Qilog2 (a : Q) : Z :=
  let e := Z.log2 (Qnum a) - Z.log2 (Z.pos (Qden a)) in
  if Qle_bool (2 ^ e) a then e else e - 1.

(** The nearest integer, a tie going to the even one. *)
Definition round_half_even (x : Q) : Z :=
  let f := Qfloor x in
  match (x - inject_Z f ?= 1 # 2)%Q with
  | Lt => f
  | Gt => f + 1
  | Eq => if Z.even f then f else f + 1
  end.

(** The spacing of the doubles at a positive [a] is [2^(e - 52)] for the
    binary exponent [e] of [a], and [2^-1074] below the normal range. *)
Definition ulp_exponent (a : Q) : Z := Z.max (Qilog2 a - 52) (-1074).

(** The multiple of that spacing nearest to a positive [a]. *)
Definition round_positive (a : Q) : Q :=
  (inject_Z (round_half_even (a / 2 ^ ulp_exponent a)) * 2 ^ ulp_exponent a)%Q.

(** The double nearest to [q], a tie going to the even significand: the
    result of every arithmetic operation of the script is the [binary64] of
    its exact result.  The rounding is symmetric about zero.  Overflow to
    [Infinity], from [2^1024] on, is left out: no operation modelled here
    comes near it. *)
Definition binary64 (q : Q) : Q :=
  let a := Qred (Qabs q) in
  if Qeq_bool a 0 then 0%Q
  else
    let r := Qred (round_positive a) in
    if Qle_bool 0 q then r else Qopp r.

(* ===================================================================== *)
(** * generateOptimizedGrid *)
(* ===================================================================== *)

(** A coordinate pair [[latitude, longitude]]. *)
Definition coord : Type := (Q * Q)%type.

Definition latStart : Q := 24.
Definition latEnd : Q := 50.
Definition lonStart : Q := -126.
Definition lonEnd : Q := -66.
Definition step : Q := 0.25.

(** The key [`${lat.toFixed(4)},${lon.toFixed(4)}`] of a pair. *)
Definition coord_key (p : coord) : string :=
  toFixed4 (fst p) +:+ "," +:+ toFixed4 (snd p).

(** [Math.round(x * 10000) / 10000]. *)
Definition round4 (x : Q) : Q := Qred (Math_round (x * 10000) / 10000).

(** The inner loop [for (lon = lonStart; lon <= lonEnd; lon += step)]: a key
    not yet in [seen] pushes the rounded pair on [row] and enters [seen].
    [None] when the fuel ends before the loop does. *)
Fixpoint lon_loop (fuel : nat) (lat lon : Q) (row : list coord) (seen : gset string)
  : option (list coord * gset string) :=
  match fuel with
  | O => None
  | S f =>
    if Qle_bool lon lonEnd then
      let key := coord_key (lat, lon) in
      if decide (key ∈ seen)
      then lon_loop f lat (Qred (lon + step)) row seen
      else lon_loop f lat (Qred (lon + step))
             (row ++ [(round4 lat, round4 lon)]) ({[ key ]} ∪ seen)
    else Some (row, seen)
  end.

(** [row.sort((a, b) => a[1] - b[1])]: a stable sort by ascending longitude,
    written as the insertion of each element after the ones not greater. *)
Fixpoint insert_by_lon (p : coord) (sorted : list coord) : list coord :=
  match sorted with
  | [] => [p]
  | q :: rest =>
    if Qle_bool (snd q) (snd p) then q :: insert_by_lon p rest else p :: sorted
  end.

Definition sort_row (row : list coord) : list coord :=
  fold_left (fun sorted p => insert_by_lon p sorted) row [].

(** The outer loop [for (lat = latStart; lat <= latEnd; lat += step)];
    [inner] is the fuel handed to each run of the inner loop. *)
Fixpoint lat_loop (fuel inner : nat) (lat : Q) (grid : list coord) (seen : gset string)
  : option (list coord * gset string) :=
  match fuel with
  | O => None
  | S f =>
    if Qle_bool lat latEnd then
      match lon_loop inner lat lonStart [] seen with
      | None => None
      | Some (row, seen') =>
        lat_loop f inner (Qred (lat + step)) (grid ++ sort_row row) seen'
      end
    else Some (grid, seen)
  end.

Definition extraPoints : list coord :=
  [ (45.5, -87.0); (46.5, -84.5); (43.5, -82.5); (42.5, -81.5); (44.0, -76.5);
    (49.0, -123.0); (48.5, -120.0); (47.5, -95.0); (45.0, -83.0); (44.5, -75.0);
    (48.5, -124.5); (40.5, -124.0); (25.0, -81.0); (44.0, -67.0) ]%Q.

(** One round of [extraPoints.forEach]: the point itself is pushed when its
    key is new. *)
Definition add_extra (st : list coord * gset string) (point : coord)
  : list coord * gset string :=
  let key := coord_key point in
  if decide (key ∈ st.2) then st else (st.1 ++ [point], {[ key ]} ∪ st.2).

Definition generateOptimizedGrid (fuel : nat) : option (list coord) :=
  match lat_loop fuel fuel latStart [] ∅ with
  | None => None
  | Some st => Some (fold_left add_extra extraPoints st).1
  end.

(** How often a key occurs among the keys of a grid. *)
Definition key_count (k : string) (grid : list coord) : nat :=
  length (filter (fun p => coord_key p = k) grid).

(* ===================================================================== *)
(** * JSON values *)
(* ===================================================================== *)

(** What [response.json()] can resolve to; numbers are the finite ones.  An
    object keeps its members in source order; [JSON.parse] lets the last of
    several equal names win. *)
Inductive json : Type :=
| JNull
| JBool (b : bool)
| JNum (q : Q)
| JStr (s : string)
| JArr (items : list json)
| JObj (members : list (string * json)).

(** A JavaScript value read out of parsed JSON: [None] is [undefined]. *)
Definition jsval : Type := option json.

(** Truthiness as [&&] and [if] test it.  Every array and every object is
    truthy, the empty ones included. *)
Definition truthy (v : jsval) : bool :=
  match v with
  | None => false
  | Some JNull => false
  | Some (JBool b) => b
  | Some (JNum q) => negb (Qeq_bool q 0)
  | Some (JStr s) => negb (String.eqb s "")
  | Some (JArr _) => true
  | Some (JObj _) => true
  end.

Fixpoint last_member (name : string) (members : list (string * json)) : jsval :=
  match members with
  | [] => None
  | (k, v) :: rest =>
    match last_member name rest with
    | Some w => Some w
    | None => if String.eqb k name then Some v else None
    end
  end.

(** [v.name] for one of the two names the script reads ([hourly],
    [temperature_2m]), neither of which a prototype defines: [inl tt] is the
    [TypeError] raised on [null], primitives and arrays give [undefined]. *)
Definition get_member (v : json) (name : string) : unit + jsval :=
  match v with
  | JNull => inl tt
  | JObj members => inr (last_member name members)
  | _ => inr None
  end.

(** The property name an integer index is converted to. *)
Definition index_name (i : Z) : string :=
  if i <? 0 then "-" +:+ show_N (- i) else show_N i.

(** [v[i]] for an integer [i]: [inl tt] is the [TypeError] raised on
    [null]; otherwise an array element, a one-character string, the member
    of an object named by the index, or [undefined]. *)
Definition get_index (v : json) (i : Z) : unit + jsval :=
  match v with
  | JNull => inl tt
  | JArr items => inr (if i <? 0 then None else items !! Z.to_nat i)
  | JStr s =>
    inr (if i <? 0 then None
         else option_map (fun c => JStr (String c EmptyString)) (String.get (Z.to_nat i) s))
  | JObj members => inr (last_member (index_name i) members)
  | _ => inr None
  end.

(* ===================================================================== *)
(** * WeatherDataManager.fetchData *)
(* ===================================================================== *)

(** An element of [this.weatherData].  [coords] is [chunk[index]], which is
    [undefined] ([None]) when the response is longer than the chunk. *)
Record WeatherRecord : Type := mkRecord {
  coords : option coord;
  temperatures : json
}.

Definition maxPointsPerRequest : nat := 100.
Definition apiKey : string := "zTdChqFCDsm2vSJU".

(** [xs.slice(i, j)] for [0 <= i <= j]; the end is clamped to the length. *)
Definition slice {A} (xs : list A) (i j : nat) : list A := take (j - i) (drop i xs).

(** The chunking loop
    [for (i = 0; i < coordinates.length; i += maxPointsPerRequest)]. *)
Fixpoint split_loop (fuel i : nat) (coordinates : list coord) (chunks : list (list coord))
  : option (list (list coord)) :=
  match fuel with
  | O => None
  | S f =>
    if (i <? length coordinates)%nat
    then split_loop f (i + maxPointsPerRequest)%nat coordinates
           (chunks ++ [slice coordinates i (i + maxPointsPerRequest)])
    else Some chunks
  end.

(** The request URL of a chunk. *)
Definition request_url (chunk : list coord) : string :=
  let lats := String.concat "," (map (fun c => toFixed4 (fst c)) chunk) in
  let lons := String.concat "," (map (fun c => toFixed4 (snd c)) chunk) in
  "https://customer-api.open-meteo.com/v1/forecast?latitude=" +:+ lats +:+
  "&longitude=" +:+ lons +:+
  "&hourly=temperature_2m&temperature_unit=fahrenheit&forecast_days=1&models=gfs_graphcast025&apikey="
  +:+ apiKey.

(** The value of [point.hourly && point.hourly.temperature_2m]: [inl tt]
    when reading [point.hourly] raises, else the first falsy operand or the
    second one. *)
Definition hourly_series (point : json) : unit + jsval :=
  match get_member point "hourly" with
  | inl e => inl e
  | inr None => inr None
  | inr (Some hourly) =>
    if truthy (Some hourly) then get_member hourly "temperature_2m"
    else inr (Some hourly)
  end.

(** [data.forEach((point, index) => ...)] from [index] on.  The flag of the
    result tells whether the callback raised; the records pushed before that
    stay in the accumulator. *)
Fixpoint forEach_points (chunk : list coord) (index : nat) (data : list json)
    (weatherData : list WeatherRecord) : list WeatherRecord * bool :=
  match data with
  | [] => (weatherData, false)
  | point :: rest =>
    match hourly_series point with
    | inl _ => (weatherData, true)
    | inr (Some series) =>
      if truthy (Some series)
      then forEach_points chunk (S index) rest
             (weatherData ++ [mkRecord (chunk !! index) series])
      else forEach_points chunk (S index) rest weatherData
    | inr None => forEach_points chunk (S index) rest weatherData
    end
  end.

(** [if (Array.isArray(data)) data.forEach(...)]. *)
Definition process_response (chunk : list coord) (data : json)
    (weatherData : list WeatherRecord) : list WeatherRecord * bool :=
  match data with
  | JArr points => forEach_points chunk 0 points weatherData
  | _ => (weatherData, false)
  end.

(** What [await fetch(url)] and [await response.json()] give: a rejected
    fetch, or a response with its status and, when the body parses, its
    JSON. *)
Inductive fetch_outcome : Type :=
| NetworkFailure
| Response (status : Z) (body : option json).

(** [response.ok]. *)
Definition response_ok (status : Z) : bool := (200 <=? status) && (status <=? 299).

(** The world outside [fetchData]: the outcome of the request made in the
    [n]-th pass of the loop, and whether the progress callback called in that
    pass returns (rather than throws). *)
Record world : Type := mkWorld {
  fetch : nat -> string -> fetch_outcome;
  updateProgress_returns : nat -> bool
}.

(** What [fetchData] does that is visible from outside, in order. *)
Inductive event : Type :=
| Requested (url : string)
| Progress (percent : Q)
| Waited (ms : Z)
| ErrorLogged.

(** The state of the [for (const chunk of chunks)] loop: the array under
    iteration (it grows while iterated), the iterator's index, the
    accumulator, the counter, and the events so far. *)
Record loop_state : Type := mkState {
  chunks : list (list coord);
  position : nat;
  weatherData : list WeatherRecord;
  processedChunks : nat;
  events : list event
}.

(** The [catch] block. *)
Definition catch_block (s : loop_state) (chunk : list coord) : loop_state :=
  mkState (chunks s ++ [chunk]) (position s) (weatherData s) (processedChunks s)
          (events s ++ [ErrorLogged]).

(** [processedChunks / totalChunks * 100]: the division rounds, and so does
    the multiplication. *)
Definition percent (processed total : nat) : Q :=
  binary64 (binary64 (inject_Z (Z.of_nat processed) / inject_Z (Z.of_nat total)) * 100).

(** One pass of the loop body on [chunk], the element at [position s]. *)
Definition loop_body (w : world) (totalChunks : nat) (s : loop_state)
    (chunk : list coord) : loop_state :=
  let n := position s in
  let url := request_url chunk in
  let s0 := mkState (chunks s) (S n) (weatherData s) (processedChunks s)
                    (events s ++ [Requested url]) in
  match fetch w n url with
  | NetworkFailure => catch_block s0 chunk
  | Response status body =>
    if response_ok status then
      match body with
      | None => catch_block s0 chunk
      | Some data =>
        let '(wd, raised) := process_response chunk data (weatherData s0) in
        if raised then
          catch_block (mkState (chunks s0) (position s0) wd (processedChunks s0)
                               (events s0)) chunk
        else
          let done := S (processedChunks s0) in
          let s1 := mkState (chunks s0) (position s0) wd done
                            (events s0 ++ [Progress (percent done totalChunks)]) in
          if updateProgress_returns w n
          then mkState (chunks s1) (position s1) (weatherData s1)
                       (processedChunks s1) (events s1 ++ [Waited 100])
          else catch_block s1 chunk
      end
    else catch_block s0 chunk
  end.

(** The iterator protocol of [for ... of] over an array: stop when the index
    has reached the current length. *)
Fixpoint run_loop (fuel : nat) (w : world) (totalChunks : nat) (s : loop_state)
  : option loop_state :=
  match fuel with
  | O => None
  | S f =>
    match chunks s !! position s with
    | None => Some s
    | Some chunk => run_loop f w totalChunks (loop_body w totalChunks s chunk)
    end
  end.

(** [fetchData(coordinates, updateProgress)] on a manager whose
    [this.weatherData] is [stored]: the returned array and the events, or
    [None] when [fuel] passes of the two loops were not enough. *)
Definition fetchData (fuel : nat) (w : world) (stored : list WeatherRecord)
    (coordinates : list coord) : option (list WeatherRecord * list event) :=
  match split_loop fuel 0 coordinates [] with
  | None => None
  | Some initial =>
    match run_loop fuel w (length initial) (mkState initial 0 stored 0 []) with
    | None => None
    | Some s => Some (weatherData s, events s)
    end
  end.

(** The progress values among the events, in order. *)
Definition progress_values (evs : list event) : list Q :=
  omap (fun e => match e with Progress p => Some p | _ => None end) evs.

(** The requested URLs among the events, in order. *)
Definition requests (evs : list event) : list string :=
  omap (fun e => match e with Requested u => Some u | _ => None end) evs.

(* ===================================================================== *)
(** * WeatherRenderer *)
(* ===================================================================== *)

(** The colour table, in [Map] insertion order. *)
Definition colorStops : list (Q * list Q) :=
  [ (-20, [138; 43; 226; 0.8]);
    (-10, [75; 0; 130; 0.8]);
    (0, [0; 0; 255; 0.8]);
    (10, [0; 100; 255; 0.8]);
    (20, [0; 150; 255; 0.8]);
    (30, [0; 200; 255; 0.8]);
    (40, [0; 255; 200; 0.8]);
    (50, [0; 255; 0; 0.8]);
    (60, [173; 255; 47; 0.8]);
    (70, [255; 255; 0; 0.8]);
    (80, [255; 200; 0; 0.8]);
    (90, [255; 150; 0; 0.8]);
    (100, [255; 69; 0; 0.8]);
    (110, [255; 0; 0; 0.8]);
    (120, [139; 0; 0; 0.8]) ]%Q.

(** The three shapes of the returned string: the clamped one
    [`rgba(${c.join(',')})`], the interpolated one
    [`rgba(${c[0]}, ${c[1]}, ${c[2]}, ${c[3]})`], and ['transparent']. *)
Inductive css_color : Type :=
| rgba_joined (c : list Q)
| rgba_spaced (c : list Q)
| transparent.

Definition css_text (c : css_color) : string :=
  match c with
  | rgba_joined c => "rgba(" +:+ join_numbers "," c +:+ ")"
  | rgba_spaced c =>
    "rgba(" +:+ show_number (nth 0 c 0%Q) +:+ ", " +:+ show_number (nth 1 c 0%Q) +:+ ", " +:+
    show_number (nth 2 c 0%Q) +:+ ", " +:+ show_number (nth 3 c 0%Q) +:+ ")"
  | transparent => "transparent"
  end.

(** The channels a colour carries. *)
Definition channels (c : css_color) : list Q :=
  match c with
  | rgba_joined c => c
  | rgba_spaced c => c
  | transparent => []
  end.

(** [color1.map((c, j) => j === 3 ? c + (color2[j] - c) * factor
                                   : Math.floor(c + (color2[j] - c) * factor))].
    The subtraction, the product and the sum of a red, green or blue channel
    each round.  The alpha entries of the table are the literal [0.8], which
    stands for the double nearest to it; the script's [x - x], [0 * factor]
    and [x + 0] on it are exact and give that double back, so the alpha
    channel is carried through as the literal, the text [Number::toString]
    prints for it. *)
Definition interpolate (factor : Q) (color1 color2 : list Q) : list Q :=
  imap (fun j c =>
          if (j =? 3)%nat then Qred (c + (nth j color2 0 - c) * factor)%Q
          else
            Math_floor (binary64 (c + binary64 (binary64 (nth j color2 0 - c) * factor)))%Q)
       color1.

(** The interpolation loop: the first pair of neighbouring stops whose upper
    temperature is not below [temp]. *)
Fixpoint first_stop (temp : Q) (stops : list (Q * list Q)) : css_color :=
  match stops with
  | (temp1, color1) :: (((temp2, color2) :: _) as rest) =>
    if Qle_bool temp temp2
    then rgba_spaced
           (interpolate (binary64 (binary64 (temp - temp1) / binary64 (temp2 - temp1)))
                        color1 color2)
    else first_stop temp rest
  | _ => transparent
  end.

(** The body of [getTemperatureColor(temp)] before the string is built.
    [None] is a temperature that is [NaN] as a number: every comparison with
    it fails. *)
Definition temperature_color (temp : option Q) : css_color :=
  match temp with
  | None => transparent
  | Some t =>
    match head colorStops, last colorStops with
    | Some (lowest, first_color), Some (highest, last_color) =>
      if Qle_bool t lowest then rgba_joined first_color
      else if Qle_bool highest t then rgba_joined last_color
      else first_stop t colorStops
    | _, _ => transparent
    end
  end.

(** [getTemperatureColor(temp)].  The argument is a JavaScript number: a
    rational that is not the value of a double stands for the double nearest
    to it, which is what the script holds once it has read that number. *)
Definition getTemperatureColor (temp : option Q) : string :=
  css_text (temperature_color (option_map binary64 temp)).

(** The colour mapper on a numeric temperature. *)
Definition colorFor (t : Q) : css_color := temperature_color (Some (binary64 t)).

(** The map widget, as far as the renderer reads it. *)
Record LeafletMap : Type := mkMap {
  getSize : Q * Q;
  getNorth : Q;
  getWest : Q;
  latLngToContainerPoint : Q -> Q -> Q * Q
}.

(** The numeric conversion the comparisons of [getTemperatureColor] apply to
    their left operand.  The conversion of strings, arrays and objects goes
    through the engine's number parser, a parameter here. *)
Definition ToNumber (parse : json -> option Q) (v : jsval) : option Q :=
  match v with
  | None => None
  | Some JNull => Some 0%Q
  | Some (JBool b) => Some (if b then 1 else 0)%Q
  | Some (JNum q) => Some q
  | Some other => parse other
  end.

Inductive canvas_call : Type :=
| clearRect (x y w h : Q)
| fillRect (fillStyle : string) (x y w h : Q).


Definition Qhalf (x : Q) : Q := (x / 2)%Q.

(** The body of [this.weatherData.forEach(point => ...)] in [draw]; the flag
    tells whether the callback raised, on indexing a [null] series or on
    [point.coords[0]] with [coords] [undefined]. *)
Fixpoint draw_points (parse : json -> option Q) (m : LeafletMap) (currentHour : Z)
    (rectWidth rectHeight : Q) (data : list WeatherRecord) : list canvas_call * bool :=
  match data with
  | [] => ([], false)
  | point :: rest =>
    match get_index (temperatures point) currentHour with
    | inl _ => ([], true)
    | inr temp =>
      let color := getTemperatureColor (ToNumber parse temp) in
      match coords point with
      | None => ([], true)
      | Some (lat, lon) =>
        let pixelPoint := latLngToContainerPoint m lat lon in
        let '(calls, raised) :=
          draw_points parse m currentHour rectWidth rectHeight rest in
        (fillRect color (fst pixelPoint - Qhalf rectWidth)
                  (snd pixelPoint - Qhalf rectHeight) rectWidth rectHeight :: calls,
         raised)
      end
    end
  end.

(** [draw()]: the canvas calls in order and whether the redraw raised. *)
Definition draw (parse : json -> option Q) (m : LeafletMap)
    (data : list WeatherRecord) (currentHour : Z) : list canvas_call * bool :=
  let size := getSize m in
  let topLeft := latLngToContainerPoint m (getNorth m) (getWest m) in
  let bottomRight := latLngToContainerPoint m (getNorth m - 0.5) (getWest m + 0.5) in
  let rectWidth := Qabs (fst bottomRight - fst topLeft) in
  let rectHeight := Qabs (snd bottomRight - snd topLeft) in
  let '(calls, raised) := draw_points parse m currentHour rectWidth rectHeight data in
  (clearRect 0 0 (fst size) (snd size) :: calls, raised).

(** [render(weatherData, hour)]: store both, then redraw. *)
Definition render (parse : json -> option Q) (m : LeafletMap)
    (data : list WeatherRecord) (hour : Z) : list canvas_call * bool :=
  draw parse m data hour.


(** [v] lies between [a] and [b], in whichever order they come. *)
Definition between (a b v : Q) : Prop :=
  (a <= v /\ v <= b)%Q \/ (b <= v /\ v <= a)%Q.

Definition strictly_between (a b v : Q) : Prop :=
  (a < v /\ v < b)%Q \/ (b < v /\ v < a)%Q.

(* ===================================================================== *)
(** * Predicates and scenarios of the statements *)
(* ===================================================================== *)


(** An element has a usable series when [point.hourly] and then
    [point.hourly.temperature_2m] are both truthy. *)
Definition usable_series (point series : json) : Prop :=
  exists hourly,
    get_member point "hourly" = inr (Some hourly) /\ truthy (Some hourly) = true /\
    get_member hourly "temperature_2m" = inr (Some series) /\
    truthy (Some series) = true.

(** The stricter reading of the guard: the series is an array with at
    least one element. *)
Definition nonempty_array (v : json) : Prop :=
  match v with
  | JArr (_ :: _) => True
  | _ => False
  end.

(** The request of a pass failed: the fetch was rejected, the status is not
    2xx, or the body does not parse. *)
Definition fetch_fails (o : fetch_outcome) : bool :=
  match o with
  | NetworkFailure => true
  | Response status body =>
    negb (response_ok status) || match body with None => true | Some _ => false end
  end.

(** A pass on [chunk], the [n]-th of the loop, ends in the [catch] block. *)
Definition pass_raises (w : world) (n : nat) (chunk : list coord) : bool :=
  match fetch w n (request_url chunk) with
  | NetworkFailure => true
  | Response status body =>
    if response_ok status then
      match body with
      | None => true
      | Some data =>
        (process_response chunk data []).2 || negb (updateProgress_returns w n)
      end
    else true
  end.

(** The state after exactly [n] passes, [None] if the loop ends before. *)
Fixpoint after_passes (n : nat) (w : world) (totalChunks : nat) (s : loop_state)
  : option loop_state :=
  match n with
  | O => Some s
  | S k =>
    match chunks s !! position s with
    | None => None
    | Some chunk => after_passes k w totalChunks (loop_body w totalChunks s chunk)
    end
  end.

Definition errors (evs : list event) : nat :=
  length (omap (fun e => match e with ErrorLogged => Some tt | _ => None end) evs).

Definition waits (evs : list event) : nat :=
  length (omap (fun e => match e with Waited _ => Some tt | _ => None end) evs).

(** The three ways a pass can go. *)
Inductive pass (w : world) (total : nat) (s : loop_state) (chunk : list coord)
  : loop_state -> Prop :=
| pass_completed wd :
    pass_raises w (position s) chunk = false ->
    pass w total s chunk
      (mkState (chunks s) (S (position s)) wd (S (processedChunks s))
         (((events s ++ [Requested (request_url chunk)]) ++
           [Progress (percent (S (processedChunks s)) total)]) ++ [Waited 100]))
| pass_failed wd :
    pass_raises w (position s) chunk = true ->
    (fetch_fails (fetch w (position s) (request_url chunk)) = true -> wd = weatherData s) ->
    pass w total s chunk
      (mkState (chunks s ++ [chunk]) (S (position s)) wd (processedChunks s)
         ((events s ++ [Requested (request_url chunk)]) ++ [ErrorLogged]))
| pass_callback_threw wd :
    pass_raises w (position s) chunk = true ->
    fetch_fails (fetch w (position s) (request_url chunk)) = false ->
    updateProgress_returns w (position s) = false ->
    pass w total s chunk
      (mkState (chunks s ++ [chunk]) (S (position s)) wd (S (processedChunks s))
         (((events s ++ [Requested (request_url chunk)]) ++
           [Progress (percent (S (processedChunks s)) total)]) ++ [ErrorLogged])).

(** What every state of the loop satisfies, whatever the world does. *)
Record loop_invariant (total : nat) (s : loop_state) : Prop := mkInv {
  inv_queue : length (chunks s) = (total + errors (events s))%nat;
  inv_passes : position s = (errors (events s) + waits (events s))%nat;
  inv_bound : (position s <= length (chunks s))%nat;
  inv_requests : length (requests (events s)) = position s;
  inv_progress :
    progress_values (events s) =
    map (fun k => percent k total) (seq 1 (processedChunks s));
  inv_waits : (waits (events s) <= processedChunks s)%nat
}.

(** A world that answers every request with an empty array and whose
    callback returns. *)
Definition calm_world : world :=
  mkWorld (fun _ _ => Response 200 (Some (JArr []))) (fun _ => true).

(** A world that answers likewise, with a callback that throws the first
    time it is called. *)
Definition callback_throws_once : world :=
  mkWorld (fun _ _ => Response 200 (Some (JArr []))) (fun n => negb (n =? 0)%nat).

(** A world where every request is rejected. *)
Definition offline_world : world :=
  mkWorld (fun _ _ => NetworkFailure) (fun _ => true).

(** A world where the first request is rejected and the later ones answered
    with an empty array. *)
Definition fails_first : world :=
  mkWorld (fun n _ => if (n =? 0)%nat then NetworkFailure
                      else Response 200 (Some (JArr [])))
          (fun _ => true).

(** A number with at most four decimals: [x * 10000] is an integer. *)
Definition four_decimals (x : Q) : Prop :=
  (inject_Z (Qfloor (x * 10000)) == x * 10000)%Q.

(** The grid under construction has pairwise distinct keys, and [seen] holds
    exactly those keys. *)
Definition grid_inv (grid : list coord) (seen : gset string) : Prop :=
  NoDup (coord_key <$> grid) /\ forall k, k ∈ seen <-> k ∈ coord_key <$> grid.

(** How many of the values [x], [x + step], [x + 2 step], ... do not exceed
    [hi]: the passes a loop [for (...; x <= hi; x += step)] standing at [x]
    still makes. *)
Definition remaining (x hi : Q) : nat := Z.to_nat (Qfloor ((hi - x) / step) + 1).

(** A record [draw] can paint: its [coords] are defined and its series is
    not [null]. *)
Definition drawable (p : WeatherRecord) : Prop :=
  coords p <> None /\ temperatures p <> JNull.


(** A record that can be traced to an element of an answer to the request
    of one of the chunks. *)
Definition traced_record (w : world) (initial : list (list coord)) (r : WeatherRecord)
  : Prop :=
  truthy (Some (temperatures r)) = true /\
  exists n chunk status points i,
    chunk ∈ initial /\
    fetch w n (request_url chunk) = Response status (Some (JArr points)) /\
    (i < length points)%nat /\ coords r = chunk !! i.


(** A world that answers every request with one element carrying one
    reading, 71.5. *)
Definition one_reading : world :=
  mkWorld (fun _ _ =>
             Response 200
               (Some (JArr [JObj [("hourly",
                                   JObj [("temperature_2m", JArr [JNum 71.5])])]])))
          (fun _ => true).

(** A flat map: a degree is ten pixels, on a canvas of 600 by 260. *)
Definition flat_map : LeafletMap :=
  mkMap (600, 260)%Q 50 (-126) (fun lat lon => ((lon + 126) * 10, (50 - lat) * 10)%Q).

(** A world whose every answer holds one usable element followed by
    [null], the first time; later answers hold the usable element only. *)
Definition null_then_clean : world :=
  mkWorld (fun n _ =>
             let element := JObj [("hourly", JObj [("temperature_2m", JArr [JNum 71.5])])] in
             Response 200 (Some (JArr (if (n =? 0)%nat then [element; JNull] else [element]))))
          (fun _ => true).


(* ===================================================================== *)
(** * The controller: hover handler and startup *)
(* ===================================================================== *)

(** [x < y] as the script's comparison computes it. *)
Definition Qlt_bool (x y : Q) : bool := negb (Qle_bool y x).

(** A record lies within a quarter degree of the pointer on both axes. *)
Definition near (lat lng : Q) (c : coord) : bool :=
  Qlt_bool (Qabs (fst c - lat)) 0.25 && Qlt_bool (Qabs (snd c - lng)) 0.25.

(** The [mousemove] handler's
    [weatherData.find(p => |p.coords[0] - lat| < 0.25 && |p.coords[1] - lng| < 0.25)]:
    [inl tt] when the test raises on a record without [coords], else the
    first record that passes it, [None] ([undefined]) if none does. *)
Fixpoint find_near (lat lng : Q) (data : list WeatherRecord) : unit + option WeatherRecord :=
  match data with
  | [] => inr None
  | p :: rest =>
    match coords p with
    | None => inl tt
    | Some c => if near lat lng c then inr (Some p) else find_near lat lng rest
    end
  end.


(* ===================================================================== *)
(** * Further predicates of the statements *)
(* ===================================================================== *)

(** The number a string of decimal digits reads as, [None] when some
    character is not a digit. *)
Definition digits_value (s : string) : option N :=
  option_map N.of_uint (NilEmpty.uint_of_string s).

(** The character does not occur in the string. *)
Fixpoint lacks (c : ascii) (s : string) : Prop :=
  match s with
  | EmptyString => True
  | String a rest => a <> c /\ lacks c rest
  end.

(** The points built so far come before the position [(lat, lon)] of the
    two loops, in row-major order, and have at most four decimals. *)
Definition before_position (lat lon : Q) (points : list coord) : Prop :=
  forall p, p ∈ points ->
    four_decimals p.1 /\ four_decimals p.2 /\
    ((p.1 < lat)%Q \/ ((p.1 == lat)%Q /\ (p.2 < lon)%Q)).

(** Longitudes do not decrease along the row. *)
Definition ascending_lon (row : list coord) : Prop :=
  forall i j p q, (i <= j)%nat -> row !! i = Some p -> row !! j = Some q -> (p.2 <= q.2)%Q.

(* ===================================================================== *)
(** * Rounding to doubles *)
(* ===================================================================== *)

Lemma pow2_pos (e : Z) : (0 < 2 ^ e)%Q.
Proof. by apply Qpower_0_lt. Qed.

Lemma pow2_succ (e : Z) : (2 ^ (e + 1) == 2 * 2 ^ e)%Q.
Proof. rewrite Qpower_plus by discriminate. change (2 ^ 1)%Q with 2%Q. ring. Qed.

Lemma pow2_add (a b : Z) : (2 ^ (a + b) == 2 ^ a * 2 ^ b)%Q.
Proof. by apply Qpower_plus. Qed.

Lemma pow2_le (a b : Z) : (a <= b)%Z -> (2 ^ a <= 2 ^ b)%Q.
Proof. intros H. apply Qpower_le_compat_l; [done|]. discriminate. Qed.

Lemma pow2_lt_inv (a b : Z) : (2 ^ a < 2 ^ b)%Q -> (a < b)%Z.
Proof.
  intros H. destruct (Z.lt_ge_cases a b) as [|Hge]; [done|].
  apply pow2_le in Hge. lra.
Qed.

Lemma pow2_nat (n : Z) : (0 <= n)%Z -> (inject_Z (2 ^ n) == 2 ^ n)%Q.
Proof. intros H. by rewrite Zpower_Qpower. Qed.

(** The exponent found by [Qilog2] brackets the number. *)
Lemma Qilog2_spec (a : Q) :
  (0 < a)%Q -> (2 ^ Qilog2 a <= a)%Q /\ (a < 2 ^ (Qilog2 a + 1))%Q.
Proof.
  intros Ha. unfold Qilog2.
  destruct a as [n d]. cbn [Qnum Qden].
  assert (0 < n)%Z as Hn by (unfold Qlt in Ha; cbn in Ha; lia).
  set (L := Z.log2 n). set (M := Z.log2 (Z.pos d)).
  destruct (Z.log2_spec n Hn) as [HL1 HL2]. fold L in HL1, HL2.
  destruct (Z.log2_spec (Z.pos d) eq_refl) as [HM1 HM2]. fold M in HM1, HM2.
  assert (0 <= L)%Z as HL0 by apply Z.log2_nonneg.
  assert (0 <= M)%Z as HM0 by apply Z.log2_nonneg.
  pose proof (pow2_pos L) as HPL. pose proof (pow2_pos M) as HPM.
  pose proof (pow2_pos (L - M)) as HPe.
  assert (2 ^ L <= inject_Z n)%Q as Q1 by (rewrite <- pow2_nat by done; by rewrite <- Zle_Qle).
  assert (inject_Z n < 2 * 2 ^ L)%Q as Q2.
  { rewrite <- pow2_succ, <- pow2_nat by lia. rewrite <- Zlt_Qlt.
    by rewrite <- Z.add_1_r in HL2. }
  assert (2 ^ M <= inject_Z (Z.pos d))%Q as Q3
    by (rewrite <- pow2_nat by done; by rewrite <- Zle_Qle).
  assert (inject_Z (Z.pos d) < 2 * 2 ^ M)%Q as Q4.
  { rewrite <- pow2_succ, <- pow2_nat by lia. rewrite <- Zlt_Qlt.
    by rewrite <- Z.add_1_r in HM2. }
  assert (2 ^ (L - M) * 2 ^ M == 2 ^ L)%Q as He.
  { rewrite <- pow2_add. by replace (L - M + M)%Z with L by lia. }
  assert ((n # d) * inject_Z (Z.pos d) == inject_Z n)%Q as Hq.
  { rewrite (Qmake_Qdiv n d). field. intros H0. unfold Qeq in H0. cbn in H0. lia. }
  set (q := (n # d)%Q) in *. set (x := inject_Z n) in *. set (y := inject_Z (Z.pos d)) in *.
  set (P := (2 ^ L)%Q) in *. set (R := (2 ^ M)%Q) in *. set (E := (2 ^ (L - M))%Q) in *.
  destruct (Qle_bool E q) eqn:Htest.
  - apply Qle_bool_iff in Htest. split; [done|].
    rewrite pow2_succ. fold E.
    destruct (Qlt_le_dec q (2 * E)) as [|Hge]; [done|]. exfalso.
    assert (2 * E * y <= q * y)%Q by (apply Qmult_le_compat_r; lra).
    assert (E * R <= E * y)%Q by (apply Qmult_le_l; lra).
    lra.
  - assert (q < E)%Q as Hlt.
    { destruct (Qlt_le_dec q E) as [|Hge]; [done|].
      apply Qle_bool_iff in Hge. congruence. }
    replace (L - M - 1 + 1)%Z with (L - M)%Z by lia. fold E. split; [|done].
    assert (2 * 2 ^ (L - M - 1) == E)%Q as Hh.
    { rewrite <- pow2_succ. unfold E. by replace (L - M - 1 + 1)%Z with (L - M)%Z by lia. }
    pose proof (pow2_pos (L - M - 1)) as HPh.
    set (h := (2 ^ (L - M - 1))%Q) in *.
    destruct (Qlt_le_dec q h) as [Hlow|]; [|done]. exfalso.
    assert (q * y <= h * y)%Q by (apply Qmult_le_compat_r; lra).
    assert (h * y < h * (2 * R))%Q by (apply Qmult_lt_l; lra).
    assert (h * (2 * R) == E * R)%Q by (rewrite <- Hh; ring).
    lra.
Qed.

Lemma Qilog2_unique (a : Q) (e : Z) :
  (2 ^ e <= a)%Q -> (a < 2 ^ (e + 1))%Q -> Qilog2 a = e.
Proof.
  intros H1 H2. pose proof (pow2_pos e).
  destruct (Qilog2_spec a) as [H3 H4]; [lra|].
  assert (Qilog2 a < e + 1)%Z by (apply pow2_lt_inv; lra).
  assert (e < Qilog2 a + 1)%Z by (apply pow2_lt_inv; lra).
  lia.
Qed.

Lemma Qilog2_mono (a b : Q) : (0 < a)%Q -> (a <= b)%Q -> (Qilog2 a <= Qilog2 b)%Z.
Proof.
  intros Ha Hab.
  destruct (Qilog2_spec a Ha) as [H1 _].
  destruct (Qilog2_spec b) as [_ H2]; [lra|].
  assert (Qilog2 a < Qilog2 b + 1)%Z by (apply pow2_lt_inv; lra). lia.
Qed.

(** Rounding to the nearest integer, a tie to the even one. *)
Lemma round_half_even_cases (x : Q) :
  let f := Qfloor x in
  (inject_Z f <= x < inject_Z f + 1)%Q /\
  ((x - inject_Z f < 1 # 2)%Q /\ round_half_even x = f \/
   (1 # 2 < x - inject_Z f)%Q /\ round_half_even x = (f + 1)%Z \/
   (x - inject_Z f == 1 # 2)%Q /\ (round_half_even x = f \/ round_half_even x = (f + 1)%Z)).
Proof.
  intros f. split.
  - pose proof (Qfloor_le x). pose proof (Qlt_floor x) as H2. fold f in H2.
    rewrite inject_Z_plus in H2. change (inject_Z 1) with 1%Q in H2. subst f. split; lra.
  - unfold round_half_even. fold f.
    destruct (Qcompare_spec (x - inject_Z f) (1 # 2)) as [Heq|Hlt|Hgt].
    + right. right. split; [done|]. destruct (Z.even f); auto.
    + left. done.
    + right. left. done.
Qed.

Lemma round_half_even_near (x : Q) :
  (x - (1 # 2) <= inject_Z (round_half_even x) <= x + (1 # 2))%Q.
Proof.
  destruct (round_half_even_cases x) as [[Hf1 Hf2] Hc].
  destruct Hc as [[Hlt ->]|[[Hgt ->]|[Heq [-> | ->]]]];
    rewrite ?inject_Z_plus; change (inject_Z 1) with 1%Q; split; lra.
Qed.

Lemma round_half_even_Z (z : Z) : round_half_even (inject_Z z) = z.
Proof.
  unfold round_half_even. rewrite Qfloor_Z.
  destruct (Qcompare_spec (inject_Z z - inject_Z z) (1 # 2)) as [H|H|H]; [lra|done|lra].
Qed.

Lemma round_half_even_proper (x y : Q) : (x == y)%Q -> round_half_even x = round_half_even y.
Proof.
  intros H. unfold round_half_even. rewrite (Qfloor_comp _ _ H).
  assert ((x - inject_Z (Qfloor y) ?= 1 # 2) = (y - inject_Z (Qfloor y) ?= 1 # 2))%Q as ->; [|done].
  by rewrite H.
Qed.

Lemma round_half_even_mono (x y : Q) : (x <= y)%Q -> (round_half_even x <= round_half_even y)%Z.
Proof.
  intros Hxy.
  pose proof (Qfloor_resp_le _ _ Hxy) as Hfl.
  destruct (round_half_even_cases x) as [[Hx1 Hx2] Hcx].
  destruct (round_half_even_cases y) as [[Hy1 Hy2] Hcy].
  destruct (Z.eq_dec (Qfloor x) (Qfloor y)) as [Heq|Hne].
  - unfold round_half_even. rewrite Heq.
    destruct (Qcompare_spec (x - inject_Z (Qfloor y)) (1 # 2)) as [Hx|Hx|Hx];
      destruct (Qcompare_spec (y - inject_Z (Qfloor y)) (1 # 2)) as [Hy|Hy|Hy];
      try lra; try lia; destruct (Z.even (Qfloor y)); lia.
  - assert (Qfloor x + 1 <= Qfloor y)%Z by lia.
    assert (round_half_even x <= Qfloor x + 1)%Z
      by (destruct Hcx as [[_ ->]|[[_ ->]|[_ [-> | ->]]]]; lia).
    assert (Qfloor y <= round_half_even y)%Z
      by (destruct Hcy as [[_ ->]|[[_ ->]|[_ [-> | ->]]]]; lia).
    lia.
Qed.


Lemma Qilog2_proper (a b : Q) : (0 < a)%Q -> (a == b)%Q -> Qilog2 a = Qilog2 b.
Proof.
  intros Ha Hab. destruct (Qilog2_spec a Ha) as [H1 H2].
  symmetry. apply Qilog2_unique; lra.
Qed.

Lemma round_positive_proper (a b : Q) :
  (0 < a)%Q -> (a == b)%Q -> (round_positive a == round_positive b)%Q.
Proof.
  intros Ha Hab. unfold round_positive, ulp_exponent.
  rewrite (Qilog2_proper a b Ha Hab).
  rewrite (round_half_even_proper (a / _) (b / 2 ^ Z.max (Qilog2 b - 52) (-1074))); [done|].
  by rewrite Hab.
Qed.

Lemma binary64_zero (q : Q) : (q == 0)%Q -> binary64 q = 0%Q.
Proof.
  intros H. unfold binary64.
  assert (Qred (Qabs q) = Qred 0) as -> by (apply Qred_complete; rewrite H; reflexivity).
  reflexivity.
Qed.

Lemma binary64_positive (q : Q) : (0 < q)%Q -> (binary64 q == round_positive q)%Q.
Proof.
  intros Hq. unfold binary64.
  assert (Qred (Qabs q) == q)%Q as Hred by (rewrite Qred_correct, Qabs_pos; [reflexivity|lra]).
  destruct (Qeq_bool (Qred (Qabs q)) 0) eqn:Hz.
  { apply Qeq_bool_iff in Hz. lra. }
  assert (Qle_bool 0 q = true) as -> by (apply Qle_bool_iff; lra).
  rewrite Qred_correct. apply round_positive_proper; [lra|done].
Qed.

Lemma binary64_negative (q : Q) : (q < 0)%Q -> (binary64 q == - round_positive (- q))%Q.
Proof.
  intros Hq. unfold binary64.
  assert (Qred (Qabs q) == - q)%Q as Hred by (rewrite Qred_correct, Qabs_neg; [reflexivity|lra]).
  destruct (Qeq_bool (Qred (Qabs q)) 0) eqn:Hz.
  { apply Qeq_bool_iff in Hz. lra. }
  assert (Qle_bool 0 q = false) as ->.
  { destruct (Qle_bool 0 q) eqn:E; [|done]. apply Qle_bool_iff in E. lra. }
  rewrite Qred_correct.
  assert (round_positive (Qred (Qabs q)) == round_positive (- q))%Q as ->; [|reflexivity].
  apply round_positive_proper; [lra|done].
Qed.

Lemma binary64_proper (x y : Q) : (x == y)%Q -> binary64 x = binary64 y.
Proof.
  intros H. unfold binary64.
  assert (Qred (Qabs x) = Qred (Qabs y)) as -> by (apply Qred_complete; by rewrite H).
  assert (Qle_bool 0 x = Qle_bool 0 y) as ->; [|done].
  destruct (Qle_bool 0 y) eqn:E.
  - apply Qle_bool_iff. apply Qle_bool_iff in E. lra.
  - destruct (Qle_bool 0 x) eqn:E'; [|done].
    apply Qle_bool_iff in E'. rewrite H in E'. apply Qle_bool_iff in E'. congruence.
Qed.

Lemma round_positive_nonneg (a : Q) : (0 < a)%Q -> (0 <= round_positive a)%Q.
Proof.
  intros Ha. unfold round_positive.
  pose proof (pow2_pos (ulp_exponent a)) as Hp.
  apply Qmult_le_0_compat; [|lra].
  change 0%Q with (inject_Z 0). rewrite <- Zle_Qle.
  rewrite <- (round_half_even_Z 0). apply round_half_even_mono.
  change (inject_Z 0) with 0%Q. apply Qle_shift_div_l; [done|]. lra.
Qed.

Lemma ulp_exponent_mono (a b : Q) :
  (0 < a)%Q -> (a <= b)%Q -> (ulp_exponent a <= ulp_exponent b)%Z.
Proof. intros Ha Hab. unfold ulp_exponent. pose proof (Qilog2_mono a b Ha Hab). lia. Qed.

Lemma round_positive_mono (a b : Q) :
  (0 < a)%Q -> (a <= b)%Q -> (round_positive a <= round_positive b)%Q.
Proof.
  intros Ha Hab. assert (0 < b)%Q as Hb by lra.
  pose proof (ulp_exponent_mono a b Ha Hab) as He.
  destruct (Z.eq_dec (ulp_exponent a) (ulp_exponent b)) as [Heq|Hne].
  - unfold round_positive. rewrite Heq.
    pose proof (pow2_pos (ulp_exponent b)) as Hp.
    apply Qmult_le_compat_r; [|lra]. rewrite <- Zle_Qle.
    apply round_half_even_mono. unfold Qdiv. apply Qmult_le_compat_r; [done|].
    apply Qlt_le_weak, Qinv_lt_0_compat, Hp.
  - assert (ulp_exponent a < ulp_exponent b)%Z as Hlt by lia. clear He Hne.
    destruct (Qilog2_spec a Ha) as [_ Ha2]. destruct (Qilog2_spec b Hb) as [Hb1 _].
    set (Ea := Qilog2 a) in *. set (Eb := Qilog2 b) in *.
    assert (ulp_exponent b = Eb - 52)%Z as Hub by (unfold ulp_exponent in *; fold Ea Eb in Hlt |- *; lia).
    assert (Ea - 52 <= ulp_exponent a)%Z as Hua by (unfold ulp_exponent; fold Ea; lia).
    assert (Ea + 1 <= Eb)%Z as HE by lia.
    (* the power of two between them *)
    apply Qle_trans with (2 ^ Eb)%Q.
    + unfold round_positive. set (e := ulp_exponent a) in *.
      pose proof (pow2_pos e) as Hp.
      assert (2 ^ Eb == inject_Z (2 ^ (Eb - e)) * 2 ^ e)%Q as ->.
      { rewrite pow2_nat by lia. rewrite <- pow2_add. by replace (Eb - e + e)%Z with Eb by lia. }
      apply Qmult_le_compat_r; [|lra]. rewrite <- Zle_Qle.
      rewrite <- (round_half_even_Z (2 ^ (Eb - e))). apply round_half_even_mono.
      rewrite pow2_nat by lia. apply Qle_shift_div_r; [done|].
      rewrite <- pow2_add. replace (Eb - e + e)%Z with Eb by lia.
      pose proof (pow2_le (Ea + 1) Eb HE). lra.
    + unfold round_positive. rewrite Hub.
      pose proof (pow2_pos (Eb - 52)) as Hp.
      assert (2 ^ Eb == inject_Z (2 ^ 52) * 2 ^ (Eb - 52))%Q as ->.
      { rewrite pow2_nat by lia. rewrite <- pow2_add. by replace (52 + (Eb - 52))%Z with Eb by lia. }
      apply Qmult_le_compat_r; [|lra]. rewrite <- Zle_Qle.
      rewrite <- (round_half_even_Z (2 ^ 52)) at 1. apply round_half_even_mono.
      rewrite pow2_nat by lia. apply Qle_shift_div_l; [done|].
      rewrite <- pow2_add. replace (52 + (Eb - 52))%Z with Eb by lia. done.
Qed.

(** Rounding keeps the order. *)
Lemma binary64_mono (x y : Q) : (x <= y)%Q -> (binary64 x <= binary64 y)%Q.
Proof.
  intros Hxy.
  destruct (Q_dec x 0) as [[Hx|Hx]|Hx]; destruct (Q_dec y 0) as [[Hy|Hy]|Hy]; try lra.
  - rewrite (binary64_negative x Hx), (binary64_negative y Hy).
    assert (round_positive (- y) <= round_positive (- x))%Q by (apply round_positive_mono; lra).
    lra.
  - rewrite (binary64_negative x Hx), (binary64_positive y Hy).
    assert (0 <= round_positive (- x))%Q by (apply round_positive_nonneg; lra).
    assert (0 <= round_positive y)%Q by (apply round_positive_nonneg; lra). lra.
  - rewrite (binary64_negative x Hx), (binary64_zero y Hy).
    assert (0 <= round_positive (- x))%Q by (apply round_positive_nonneg; lra). lra.
  - rewrite (binary64_positive x Hx), (binary64_positive y Hy).
    by apply round_positive_mono.
  - rewrite (binary64_zero x Hx), (binary64_positive y Hy).
    apply round_positive_nonneg; lra.
  - rewrite (binary64_zero x Hx), (binary64_zero y Hy). lra.
Qed.

(** In the normal range the relative error is at most 2^-53. *)
Lemma binary64_error (x : Q) :
  (2 ^ (-1022) <= x)%Q ->
  (x * (1 - 2 ^ (-53)) <= binary64 x <= x * (1 + 2 ^ (-53)))%Q.
Proof.
  intros Hx. pose proof (pow2_pos (-1022)) as H0.
  assert (0 < x)%Q as Hpos by lra.
  rewrite (binary64_positive x Hpos). unfold round_positive.
  destruct (Qilog2_spec x Hpos) as [H1 H2].
  assert (-1022 <= Qilog2 x)%Z as HE.
  { assert (-1022 < Qilog2 x + 1)%Z by (apply pow2_lt_inv; lra). lia. }
  assert (ulp_exponent x = Qilog2 x - 52)%Z as -> by (unfold ulp_exponent; lia).
  set (E := Qilog2 x) in *. pose proof (pow2_pos (E - 52)) as Hp.
  pose proof (round_half_even_near (x / 2 ^ (E - 52))) as [Hn1 Hn2].
  set (r := inject_Z (round_half_even (x / 2 ^ (E - 52)))) in *.
  assert (x / 2 ^ (E - 52) * 2 ^ (E - 52) == x)%Q as Hback by (field; lra).
  assert (2 ^ (E - 52) * (1 # 2) <= x * 2 ^ (-53))%Q as Hulp.
  { assert (2 ^ (E - 52) * (1 # 2) == 2 ^ E * 2 ^ (-53))%Q as ->.
    { replace (E - 52)%Z with (E + -53 + 1)%Z by lia. rewrite pow2_succ, pow2_add. ring. }
    apply Qmult_le_compat_r; [done|]. apply Qlt_le_weak, pow2_pos. }
  assert ((x / 2 ^ (E - 52) - (1 # 2)) * 2 ^ (E - 52) <= r * 2 ^ (E - 52))%Q
    by (apply Qmult_le_compat_r; lra).
  assert (r * 2 ^ (E - 52) <= (x / 2 ^ (E - 52) + (1 # 2)) * 2 ^ (E - 52))%Q
    by (apply Qmult_le_compat_r; lra).
  set (p := (2 ^ (E - 52))%Q) in *. set (d := (x / p)%Q) in *.
  assert ((d - (1 # 2)) * p == x - p * (1 # 2))%Q as Ha by (rewrite <- Hback; ring).
  assert ((d + (1 # 2)) * p == x + p * (1 # 2))%Q as Hb by (rewrite <- Hback; ring).
  set (u := (2 ^ (-53))%Q) in *.
  split; lra.
Qed.

(** A number [m * 2^k] with [|m| < 2^53] and [k >= -1074] is a double:
    rounding leaves it alone. *)
Lemma round_positive_exact (m k : Z) :
  (0 < m < 2 ^ 53)%Z -> (-1074 <= k)%Z ->
  (round_positive (inject_Z m * 2 ^ k) == inject_Z m * 2 ^ k)%Q.
Proof.
  intros [Hm1 Hm2] Hk.
  set (L := Z.log2 m).
  destruct (Z.log2_spec m Hm1) as [HL1 HL2]. fold L in HL1, HL2.
  assert (0 <= L)%Z as HL0 by apply Z.log2_nonneg.
  assert (L < 53)%Z as HL53.
  { apply (Z.pow_lt_mono_r_iff 2); lia. }
  pose proof (pow2_pos k) as Hpk.
  assert (Qilog2 (inject_Z m * 2 ^ k) = L + k)%Z as HE.
  { apply Qilog2_unique.
    - rewrite pow2_add. apply Qmult_le_compat_r; [|lra].
      rewrite <- pow2_nat by done. by rewrite <- Zle_Qle.
    - replace (L + k + 1)%Z with (Z.succ L + k)%Z by lia. rewrite pow2_add.
      apply Qmult_lt_compat_r; [done|].
      rewrite <- pow2_nat by lia. by rewrite <- Zlt_Qlt. }
  unfold round_positive, ulp_exponent. rewrite HE.
  set (e := Z.max (L + k - 52) (-1074)).
  assert (e <= k)%Z as Hek by lia.
  pose proof (pow2_pos e) as Hpe.
  assert (inject_Z m * 2 ^ k / 2 ^ e == inject_Z (m * 2 ^ (k - e)))%Q as Hint.
  { rewrite inject_Z_mult, pow2_nat by lia.
    replace k with (k - e + e)%Z at 1 by lia. rewrite pow2_add. field. lra. }
  rewrite (round_half_even_proper _ _ Hint), round_half_even_Z.
  rewrite inject_Z_mult, pow2_nat by lia.
  replace k with (k - e + e)%Z at 2 by lia. rewrite pow2_add. ring.
Qed.

Lemma binary64_exact (m k : Z) :
  (Z.abs m < 2 ^ 53)%Z -> (-1074 <= k)%Z ->
  (binary64 (inject_Z m * 2 ^ k) == inject_Z m * 2 ^ k)%Q.
Proof.
  intros Hm Hk. pose proof (pow2_pos k) as Hp.
  destruct (Z.lt_trichotomy m 0) as [Hneg|[->|Hpos]].
  - assert (inject_Z m < 0)%Q as Hq by (change 0%Q with (inject_Z 0); rewrite <- Zlt_Qlt; lia).
    assert (inject_Z m * 2 ^ k < 0)%Q as Hlt.
    { assert (0 < (- inject_Z m) * 2 ^ k)%Q by (apply Qmult_lt_0_compat; lra). lra. }
    rewrite (binary64_negative _ Hlt).
    assert (- (inject_Z m * 2 ^ k) == inject_Z (- m) * 2 ^ k)%Q as Hopp
      by (rewrite inject_Z_opp; ring).
    assert (0 < - (inject_Z m * 2 ^ k))%Q as Hpos' by lra.
    rewrite (round_positive_proper _ _ Hpos' Hopp).
    rewrite round_positive_exact by lia. rewrite inject_Z_opp. ring.
  - rewrite binary64_zero; [ring|]. change (inject_Z 0) with 0%Q. ring.
  - assert (0 < inject_Z m)%Q as Hq by (change 0%Q with (inject_Z 0); rewrite <- Zlt_Qlt; lia).
    rewrite binary64_positive by (apply Qmult_lt_0_compat; lra).
    apply round_positive_exact; lia.
Qed.

Lemma binary64_0 : binary64 0 = 0%Q.
Proof. reflexivity. Qed.

Lemma binary64_1 : binary64 1 = 1%Q.
Proof. vm_compute. reflexivity. Qed.

Lemma binary64_100 : binary64 100 = 100%Q.
Proof. vm_compute. reflexivity. Qed.

(** Whole numbers below [2^53] in magnitude are doubles. *)
Lemma binary64_integer (z : Z) :
  (Z.abs z < 2 ^ 53)%Z -> (binary64 (inject_Z z) == inject_Z z)%Q.
Proof.
  intros Hz.
  assert (inject_Z z == inject_Z z * 2 ^ 0)%Q as H by (change (2 ^ 0)%Q with 1%Q; ring).
  rewrite (binary64_proper _ _ H). rewrite H at 2. by apply binary64_exact.
Qed.

(** Rounding does not cross a whole number. *)
Lemma binary64_at_most (t : Q) (z : Z) :
  (Z.abs z < 2 ^ 53)%Z -> (t <= inject_Z z)%Q -> (binary64 t <= inject_Z z)%Q.
Proof.
  intros Hz H. apply Qle_trans with (binary64 (inject_Z z)); [by apply binary64_mono|].
  rewrite binary64_integer by done. apply Qle_refl.
Qed.

Lemma binary64_at_least (t : Q) (z : Z) :
  (Z.abs z < 2 ^ 53)%Z -> (inject_Z z <= t)%Q -> (inject_Z z <= binary64 t)%Q.
Proof.
  intros Hz H. apply Qle_trans with (binary64 (inject_Z z)); [|by apply binary64_mono].
  rewrite binary64_integer by done. apply Qle_refl.
Qed.

(** The significand of a rounded positive number has at most 53 bits, or is
    [2^53] itself when the rounding reaches the next power of two. *)
Lemma round_positive_significand (a : Q) :
  (0 < a)%Q ->
  (0 <= round_half_even (a / 2 ^ ulp_exponent a) <= 2 ^ 53)%Z /\ (-1074 <= ulp_exponent a)%Z.
Proof.
  intros Ha. split; [|unfold ulp_exponent; lia].
  destruct (Qilog2_spec a Ha) as [_ Hup].
  pose proof (pow2_pos (ulp_exponent a)) as Hp.
  assert (Qilog2 a + 1 - ulp_exponent a <= 53)%Z as He by (unfold ulp_exponent; lia).
  split.
  - rewrite <- (round_half_even_Z 0). apply round_half_even_mono.
    change (inject_Z 0) with 0%Q. apply Qle_shift_div_l; [done|]. lra.
  - rewrite <- (round_half_even_Z (2 ^ 53)). apply round_half_even_mono.
    rewrite pow2_nat by lia. apply Qle_shift_div_r; [done|].
    rewrite <- pow2_add.
    pose proof (pow2_le (Qilog2 a + 1) (53 + ulp_exponent a) ltac:(lia)). lra.
Qed.

Lemma round_positive_is_double (a : Q) :
  (0 < a)%Q -> (binary64 (round_positive a) == round_positive a)%Q.
Proof.
  intros Ha. destruct (round_positive_significand a Ha) as [[Hm0 Hm1] He].
  unfold round_positive at 2. 
  set (m := round_half_even (a / 2 ^ ulp_exponent a)) in *. set (e := ulp_exponent a) in *.
  assert (round_positive a == inject_Z m * 2 ^ e)%Q as Hr by reflexivity.
  destruct (Z.eq_dec m (2 ^ 53)) as [Htop|Hlow].
  - assert (inject_Z m * 2 ^ e == inject_Z 1 * 2 ^ (53 + e))%Q as Hshift.
    { rewrite Htop, pow2_add, pow2_nat by lia. change (inject_Z 1) with 1%Q. ring. }
    rewrite (binary64_proper _ _ (Qeq_trans _ _ _ Hr Hshift)), Hshift.
    apply binary64_exact; [done|lia].
  - rewrite (binary64_proper _ _ Hr). apply binary64_exact; lia.
Qed.

(** What [binary64] returns is a double: rounding it again changes nothing. *)
Lemma binary64_idempotent (q : Q) : (binary64 (binary64 q) == binary64 q)%Q.
Proof.
  destruct (Q_dec q 0) as [[Hq|Hq]|Hq].
  - pose proof (binary64_negative q Hq) as H.
    assert (0 < - q)%Q as Hpos by lra.
    pose proof (round_positive_nonneg _ Hpos) as Hnn.
    pose proof (round_positive_is_double _ Hpos) as Hd.
    rewrite (binary64_proper _ _ H), H.
    destruct (Qle_lt_or_eq _ _ Hnn) as [Hlt|Hz].
    + rewrite binary64_negative by lra.
      assert (- - round_positive (- q) == round_positive (- q))%Q as Hopp by ring.
      assert (0 < - - round_positive (- q))%Q as Hpos' by lra.
      rewrite (round_positive_proper _ _ Hpos' Hopp).
      rewrite <- (binary64_positive _ Hlt). by rewrite Hd.
    + rewrite binary64_zero by lra. lra.
  - pose proof (binary64_positive q Hq) as H.
    rewrite (binary64_proper _ _ H), H. by apply round_positive_is_double.
  - rewrite (binary64_zero q Hq). reflexivity.
Qed.

(** The rounding on familiar decimals: the double 0.1, and 0.1 + 0.2, which
    is the double 0.30000000000000004 and not the double 0.3. *)
Lemma binary64_samples :
  binary64 0.1 = (3602879701896397 # 36028797018963968)%Q /\
  binary64 (binary64 0.1 + binary64 0.2) = binary64 0.30000000000000004 /\
  binary64 (binary64 0.1 + binary64 0.2) <> binary64 0.3.
Proof.
  split; [vm_compute; reflexivity|]. split; [vm_compute; reflexivity|].
  vm_compute. discriminate.
Qed.

(** Two numbers a relative gap [2 h] apart, [h >= 2^-51], are still a
    relative gap [h] apart after rounding. *)
Lemma binary64_gap (x y h : Q) :
  (2 ^ (-1022) <= x)%Q -> (2 ^ (-51) <= h)%Q -> (x * (1 + 2 * h) <= y)%Q ->
  (binary64 x * (1 + h) <= binary64 y)%Q /\ (binary64 x < binary64 y)%Q.
Proof.
  intros Hx Hr Hxy. pose proof (pow2_pos (-1022)) as H0. pose proof (pow2_pos (-51)) as H51.
  assert (0 < x)%Q as Hpos by lra.
  assert (x <= x * (1 + 2 * h))%Q as Hxr.
  { assert (0 <= x * h)%Q by (apply Qmult_le_0_compat; lra). lra. }
  destruct (binary64_error x Hx) as [Hx1 Hx2].
  destruct (binary64_error y) as [Hy1 _]; [lra|].
  assert (2 ^ (-51) == 4 * 2 ^ (-53))%Q as H4 by reflexivity.
  pose proof (pow2_pos (-53)) as Hu. set (u := (2 ^ (-53))%Q) in *.
  assert (u < 1 # 1000)%Q as Husmall by (unfold u; reflexivity).
  assert (binary64 x * (1 + h) <= binary64 y)%Q as Hgap.
  { apply Qle_trans with (x * (1 + u) * (1 + h))%Q.
    { apply Qmult_le_compat_r; [done|]. lra. }
    apply Qle_trans with (x * (1 + 2 * h) * (1 - u))%Q.
    2:{ apply Qle_trans with (y * (1 - u))%Q; [|done].
        apply Qmult_le_compat_r; [done|]. lra. }
    assert (x * (1 + 2 * h) * (1 - u) - x * (1 + u) * (1 + h)
            == x * ((h - 4 * u) * (1 - 3 * u) + 2 * (u * (1 - 6 * u))))%Q as Hdiff by ring.
    assert (0 <= x * ((h - 4 * u) * (1 - 3 * u) + 2 * (u * (1 - 6 * u))))%Q; [|lra].
    apply Qmult_le_0_compat; [lra|].
    assert (0 <= (h - 4 * u) * (1 - 3 * u))%Q by (apply Qmult_le_0_compat; lra).
    assert (0 <= u * (1 - 6 * u))%Q by (apply Qmult_le_0_compat; lra).
    lra. }
  split; [done|].
  assert (0 < binary64 x)%Q.
  { assert (0 < x * (1 - u))%Q by (apply Qmult_lt_0_compat; lra). lra. }
  assert (0 < binary64 x * h)%Q by (apply Qmult_lt_0_compat; lra).
  lra.
Qed.

(* ===================================================================== *)
(** * The colour mapper *)
(* ===================================================================== *)

Lemma Qle_bool_false (x y : Q) : (y < x)%Q -> Qle_bool x y = false.
Proof.
  intros H. destruct (Qle_bool x y) eqn:E; [|reflexivity].
  apply Qle_bool_iff in E. lra.
Qed.

Lemma Qle_bool_true (x y : Q) : (x <= y)%Q -> Qle_bool x y = true.
Proof. intros H. now apply Qle_bool_iff. Qed.

(** C6. At or below the lowest stop (-20) the mapper returns the first
    stop's colour, at or above the highest stop (120) the last stop's colour,
    each as the joined string of the table's own numbers; so it does at -20,
    -100, 120 and 500. *)
Theorem clamp_to_extreme_stops (t : Q) :
  ((t <= -20)%Q ->
     colorFor t = rgba_joined [138; 43; 226; 0.8]%Q /\
     getTemperatureColor (Some t) = "rgba(138,43,226,0.8)") /\
  ((120 <= t)%Q ->
     colorFor t = rgba_joined [139; 0; 0; 0.8]%Q /\
     getTemperatureColor (Some t) = "rgba(139,0,0,0.8)") /\
  getTemperatureColor (Some (-20)%Q) = "rgba(138,43,226,0.8)" /\
  getTemperatureColor (Some (-100)%Q) = "rgba(138,43,226,0.8)" /\
  getTemperatureColor (Some 120%Q) = "rgba(139,0,0,0.8)" /\
  getTemperatureColor (Some 500%Q) = "rgba(139,0,0,0.8)".
Proof.
  assert ((t <= -20)%Q -> Qle_bool (binary64 t) (-20) = true) as Hlow.
  { intros H. apply Qle_bool_true. by apply (binary64_at_most t (-20)). }
  assert ((120 <= t)%Q ->
          Qle_bool (binary64 t) (-20) = false /\ Qle_bool 120 (binary64 t) = true) as Hhigh.
  { intros H. pose proof (binary64_at_least t 120 eq_refl H) as H120.
    change (inject_Z 120) with 120%Q in H120. split.
    - apply Qle_bool_false. lra.
    - by apply Qle_bool_true. }
  split; [|split; [|repeat split; vm_compute; reflexivity]].
  - intros H. unfold colorFor, getTemperatureColor, temperature_color.
    cbn [option_map head last colorStops]. rewrite (Hlow H). split; reflexivity.
  - intros H. destruct (Hhigh H) as [H1 H2].
    unfold colorFor, getTemperatureColor, temperature_color.
    cbn [option_map head last colorStops]. rewrite H1, H2. split; reflexivity.
Qed.

Lemma clamp_to_extreme_stops_witness :
  getTemperatureColor (Some (-37.5)%Q) = "rgba(138,43,226,0.8)" /\
  getTemperatureColor (Some 131%Q) = "rgba(139,0,0,0.8)".
Proof.
  split.
  - apply (proj1 (clamp_to_extreme_stops (-37.5)%Q)). vm_compute. discriminate.
  - apply (proj1 (proj2 (clamp_to_extreme_stops 131%Q))). vm_compute. discriminate.
Defined.

(** C7. At the interior stop 0 the interpolation gives that stop's own
    channels 0, 0, 255, 0.8; the string is the spaced form of them. *)
Theorem colorFor_interior_stop :
  Forall2 Qeq (channels (colorFor 0)) [0; 0; 255; 0.8]%Q /\
  (exists c, (0%Q, c) ∈ colorStops /\ Forall2 Qeq (channels (colorFor 0)) c) /\
  getTemperatureColor (Some 0%Q) = "rgba(0, 0, 255, 0.8)".
Proof.
  split; [|split].
  - vm_compute. repeat constructor.
  - exists [0; 0; 255; 0.8]%Q. split.
    + do 2 apply list_elem_of_further. apply list_elem_of_here.
    + vm_compute. repeat constructor.
  - reflexivity.
Qed.

Ltac pick_side := first [ left; split; lra | right; split; lra ].

Ltac settle_channel :=
  cbn [nth]; unfold between, strictly_between;
  split; [ pick_side | split ];
  [ intros Hne; first [ pick_side | exfalso; apply Hne; reflexivity ]
  | intros Heq; first [ reflexivity | exfalso; revert Heq; vm_compute; discriminate ] ].

(** C3 (as the code has it). Halfway between two neighbouring stops the
    mapper interpolates: each of red, green and blue lies between the two
    stops' values, strictly so where those differ, and equals them where they
    agree; alpha stays 0.8. *)
Theorem midpoint_of_neighbouring_stops (i : nat) (t1 t2 : Q) (c1 c2 : list Q) :
  colorStops !! i = Some (t1, c1) ->
  colorStops !! S i = Some (t2, c2) ->
  exists c,
    colorFor ((t1 + t2) / 2) = rgba_spaced c /\ length c = 4%nat /\
    (nth 3 c 0 == 0.8)%Q /\
    forall j, (j < 3)%nat ->
      between (nth j c1 0%Q) (nth j c2 0%Q) (nth j c 0%Q) /\
      (~ (nth j c1 0 == nth j c2 0)%Q ->
         strictly_between (nth j c1 0%Q) (nth j c2 0%Q) (nth j c 0%Q)) /\
      ((nth j c1 0 == nth j c2 0)%Q -> (nth j c 0 == nth j c1 0)%Q).
Proof.
  intros H1 H2.
  do 14 (destruct i as [|i];
    [ cbn in H1, H2; injection H1 as <- <-; injection H2 as <- <-;
      eexists; split; [ vm_compute; reflexivity | ];
      split; [ reflexivity | ]; split; [ reflexivity | ];
      intros j Hj; destruct j as [|[|[|j]]]; [ settle_channel .. | lia ]
    | ]).
  cbn in H2. destruct i; discriminate.
Qed.

Lemma midpoint_of_neighbouring_stops_witness :
  exists c,
    colorFor ((0 + 10) / 2) = rgba_spaced c /\ length c = 4%nat /\
    (nth 3 c 0 == 0.8)%Q /\
    forall j, (j < 3)%nat ->
      between (nth j [0; 0; 255; 0.8]%Q 0%Q) (nth j [0; 100; 255; 0.8]%Q 0%Q) (nth j c 0%Q) /\
      (~ (nth j [0; 0; 255; 0.8] 0 == nth j [0; 100; 255; 0.8] 0)%Q ->
         strictly_between (nth j [0; 0; 255; 0.8]%Q 0%Q) (nth j [0; 100; 255; 0.8]%Q 0%Q)
                          (nth j c 0%Q)) /\
      ((nth j [0; 0; 255; 0.8] 0 == nth j [0; 100; 255; 0.8] 0)%Q ->
         (nth j c 0 == nth j [0; 0; 255; 0.8] 0)%Q).
Proof.
  apply (midpoint_of_neighbouring_stops 2 0 10 [0; 0; 255; 0.8]%Q [0; 100; 255; 0.8]%Q);
    reflexivity.
Defined.

(** C3 as stated fails: between the stops at 0 and 10 the red channel is 0
    on both sides, and the midpoint's red channel is 0 too, not strictly
    between. *)
Lemma midpoint_channel_not_strict :
  exists (i : nat) (t1 t2 : Q) (c1 c2 : list Q) (j : nat),
    colorStops !! i = Some (t1, c1) /\
    colorStops !! S i = Some (t2, c2) /\
    (j < 3)%nat /\
    ~ strictly_between (nth j c1 0%Q) (nth j c2 0%Q)
                       (nth j (channels (colorFor ((t1 + t2) / 2))) 0%Q).
Proof.
  exists 2%nat, 0%Q, 10%Q, [0; 0; 255; 0.8]%Q, [0; 100; 255; 0.8]%Q, 0%nat.
  split; [done|]. split; [done|]. split; [lia|].
  intros H. vm_compute in H. destruct H as [[H _]|[H _]]; discriminate.
Qed.

(* ===================================================================== *)
(** * The redraw *)
(* ===================================================================== *)


Lemma get_index_inl (v : json) (h : Z) (u : unit) : get_index v h = inl u -> v = JNull.
Proof. destruct v; cbn; congruence. Qed.





(* ===================================================================== *)
(** * Parsing a chunk's response *)
(* ===================================================================== *)

Lemma hourly_series_usable (point series : json) :
  hourly_series point = inr (Some series) /\ truthy (Some series) = true <->
  usable_series point series.
Proof.
  unfold hourly_series, usable_series. split.
  - intros [H Ht]. destruct (get_member point "hourly") as [|[hourly|]]; try discriminate.
    destruct (truthy (Some hourly)) eqn:Eh.
    + exists hourly. done.
    + injection H as ->. congruence.
  - intros (hourly & -> & -> & H & Ht). done.
Qed.

Lemma forEach_points_spec (chunk : list coord) (data : list json) :
  forall (index : nat) (stored : list WeatherRecord),
  exists new,
    (forEach_points chunk index data stored).1 = stored ++ new /\
    (forall r, r ∈ new ->
       exists i point, data !! i = Some point /\
         usable_series point (temperatures r) /\ coords r = chunk !! (index + i)%nat) /\
    ((forEach_points chunk index data stored).2 = false ->
     forall i point series, data !! i = Some point -> usable_series point series ->
       mkRecord (chunk !! (index + i)%nat) series ∈ new).
Proof.
  induction data as [|point rest IH]; intros index stored;
    cbn -[truthy hourly_series].
  - exists []. rewrite app_nil_r. split; [done|]. split.
    + intros r Hr. by apply elem_of_nil in Hr.
    + intros _ i point series Hi. by rewrite lookup_nil in Hi.
  - destruct (hourly_series point) as [[]|[series|]] eqn:Hs.
    + exists []. rewrite app_nil_r. cbn. split; [done|]. split; [|done].
      intros r Hr. by apply elem_of_nil in Hr.
    + destruct (truthy (Some series)) eqn:Ht.
      * destruct (IH (S index) (stored ++ [mkRecord (chunk !! index) series]))
          as (new & Heq & Honly & Hall).
        exists (mkRecord (chunk !! index) series :: new).
        split; [by rewrite Heq, <- app_assoc|]. split.
        -- intros r Hr. apply elem_of_cons in Hr as [->|Hr].
           ++ exists 0%nat, point. rewrite Nat.add_0_r. split; [done|]. split; [|done].
              by apply hourly_series_usable.
           ++ destruct (Honly r Hr) as (i & p & Hi & Hu & Hc).
              exists (S i), p. rewrite Nat.add_succ_r. done.
        -- intros Hok [|i] p s Hi Hu; cbn in Hi.
           ++ injection Hi as <-. apply hourly_series_usable in Hu as [Hu _].
              rewrite Hs in Hu. injection Hu as ->. rewrite Nat.add_0_r. left.
           ++ right. rewrite Nat.add_succ_r. by apply (Hall Hok i p s).
      * destruct (IH (S index) stored) as (new & Heq & Honly & Hall).
        exists new. split; [done|]. split.
        -- intros r Hr. destruct (Honly r Hr) as (i & p & Hi & Hu & Hc).
           exists (S i), p. rewrite Nat.add_succ_r. done.
        -- intros Hok [|i] p s Hi Hu; cbn in Hi.
           ++ injection Hi as <-. apply hourly_series_usable in Hu as [Hu Hu'].
              rewrite Hs in Hu. injection Hu as ->. congruence.
           ++ rewrite Nat.add_succ_r. by apply (Hall Hok i p s).
    + destruct (IH (S index) stored) as (new & Heq & Honly & Hall).
      exists new. split; [done|]. split.
      * intros r Hr. destruct (Honly r Hr) as (i & p & Hi & Hu & Hc).
        exists (S i), p. rewrite Nat.add_succ_r. done.
      * intros Hok [|i] p s Hi Hu; cbn in Hi.
        -- injection Hi as <-. apply hourly_series_usable in Hu as [Hu _]. congruence.
        -- rewrite Nat.add_succ_r. by apply (Hall Hok i p s).
Qed.

Lemma records_follow (chunk : list coord) (points : list json)
    (stored : list WeatherRecord) :
  exists new,
    (process_response chunk (JArr points) stored).1 = stored ++ new /\
    (forall r, r ∈ new ->
       exists i point, points !! i = Some point /\
         usable_series point (temperatures r) /\ coords r = chunk !! i).
Proof.
  cbn. destruct (forEach_points_spec chunk points 0 stored) as (new & H1 & H2 & _).
  exists new. done.
Qed.

(** C1 (as the code has it). On an array response, the accumulator keeps
    what it had and gains records only for elements whose [hourly] and
    [hourly.temperature_2m] are both truthy (any array is, an empty one too);
    each gained record carries that series and the chunk's coordinate at the
    element's index; and when no element raises, every such element has its
    record. *)
Theorem records_only_for_truthy_series (chunk : list coord) (points : list json)
    (stored : list WeatherRecord) :
  exists new,
    (process_response chunk (JArr points) stored).1 = stored ++ new /\
    (forall r, r ∈ new ->
       exists i point, points !! i = Some point /\
         usable_series point (temperatures r) /\ coords r = chunk !! i) /\
    ((process_response chunk (JArr points) stored).2 = false ->
     forall i point series, points !! i = Some point -> usable_series point series ->
       mkRecord (chunk !! i) series ∈ new).
Proof.
  cbn. destruct (forEach_points_spec chunk points 0 stored) as (new & H1 & H2 & H3).
  exists new. done.
Qed.

(** C1 as stated fails: an element whose series is the empty array, which is
    truthy, gets a record. *)
Lemma empty_series_gets_record :
  exists (chunk : list coord) (points : list json) (r : WeatherRecord),
    points = [JObj [("hourly", JObj [("temperature_2m", JArr [])])]] /\
    r ∈ (process_response chunk (JArr points) []).1 /\
    ~ (exists i point, points !! i = Some point /\
         usable_series point (temperatures r) /\ nonempty_array (temperatures r) /\
         coords r = chunk !! i).
Proof.
  exists [(24, -126)%Q], [JObj [("hourly", JObj [("temperature_2m", JArr [])])]],
         (mkRecord (Some (24, -126)%Q) (JArr [])).
  split; [done|]. split.
  - cbn. left.
  - intros (i & point & _ & _ & Hne & _). exact Hne.
Qed.

(* ===================================================================== *)
(** * Chunking *)
(* ===================================================================== *)

Lemma slice_length_bounds {A} (xs : list A) (i : nat) :
  (i < length xs)%nat ->
  (1 <= length (slice xs i (i + maxPointsPerRequest)) <= maxPointsPerRequest)%nat.
Proof.
  intros Hi. unfold slice, maxPointsPerRequest.
  rewrite length_take, length_drop. lia.
Qed.

Lemma slice_then_drop {A} (xs : list A) (i : nat) :
  slice xs i (i + maxPointsPerRequest) ++ drop (i + maxPointsPerRequest) xs = drop i xs.
Proof.
  unfold slice. replace (i + maxPointsPerRequest - i)%nat with maxPointsPerRequest by lia.
  rewrite <- (take_drop maxPointsPerRequest (drop i xs)) at 2.
  by rewrite drop_drop.
Qed.

Lemma chunk_count_step (len i : nat) :
  (i < len)%nat ->
  ((len - i + 99) / 100 = S ((len - (i + 100) + 99) / 100))%nat.
Proof.
  intros Hi. destruct (Nat.le_gt_cases 100 (len - i)) as [Hge|Hlt].
  - replace (len - i + 99)%nat with ((len - (i + 100) + 99) + 1 * 100)%nat by lia.
    rewrite Nat.div_add by lia. lia.
  - replace (len - (i + 100))%nat with 0%nat by lia.
    rewrite (Nat.div_small (0 + 99) 100) by lia.
    replace (len - i + 99)%nat with ((len - i - 1) + 1 * 100)%nat by lia.
    rewrite Nat.div_add by lia. rewrite Nat.div_small by lia. lia.
Qed.

Lemma split_loop_spec (coordinates : list coord) :
  forall (fuel i : nat) (acc : list (list coord)),
    (length coordinates - i < fuel)%nat ->
    exists cs,
      split_loop fuel i coordinates acc = Some (acc ++ cs) /\
      concat cs = drop i coordinates /\
      Forall (fun c => (1 <= length c <= maxPointsPerRequest)%nat) cs /\
      length cs = ((length coordinates - i + 99) / 100)%nat.
Proof.
  induction fuel as [|fuel IH]; intros i acc Hfuel; [lia|].
  cbn [split_loop]. destruct (i <? length coordinates)%nat eqn:Hi.
  - apply Nat.ltb_lt in Hi.
    destruct (IH (i + maxPointsPerRequest)%nat
                 (acc ++ [slice coordinates i (i + maxPointsPerRequest)]))
      as (cs & Heq & Hcat & Hall & Hlen).
    { unfold maxPointsPerRequest. lia. }
    exists (slice coordinates i (i + maxPointsPerRequest) :: cs).
    split; [by rewrite Heq, <- app_assoc|]. split; [|split].
    + cbn. rewrite Hcat. apply slice_then_drop.
    + constructor; [by apply slice_length_bounds|done].
    + cbn. rewrite Hlen. unfold maxPointsPerRequest. by rewrite <- chunk_count_step.
  - apply Nat.ltb_ge in Hi. exists []. rewrite app_nil_r.
    split; [done|]. split; [by rewrite drop_ge|]. split; [done|].
    replace (length coordinates - i)%nat with 0%nat by lia. done.
Qed.

Lemma split_loop_more_fuel (coordinates : list coord) :
  forall (fuel fuel' i : nat) (acc result : list (list coord)),
    split_loop fuel i coordinates acc = Some result -> (fuel <= fuel')%nat ->
    split_loop fuel' i coordinates acc = Some result.
Proof.
  induction fuel as [|fuel IH]; intros fuel' i acc result H Hle; [discriminate|].
  destruct fuel' as [|fuel']; [lia|]. cbn [split_loop] in *.
  destruct (i <? length coordinates)%nat; [|done].
  apply (IH fuel'); [done|lia].
Qed.

(** The chunks [fetchData] starts from: independent of the fuel once there
    is enough of it. *)
Lemma initial_chunks (coordinates : list coord) :
  exists initial,
    (forall fuel, (length coordinates < fuel)%nat ->
       split_loop fuel 0 coordinates [] = Some initial) /\
    length initial = ((length coordinates + 99) / 100)%nat /\
    Forall (fun c => (1 <= length c <= maxPointsPerRequest)%nat) initial /\
    concat initial = coordinates.
Proof.
  destruct (split_loop_spec coordinates (S (length coordinates)) 0 [])
    as (cs & Heq & Hcat & Hall & Hlen); [lia|].
  exists cs. cbn in Heq. split; [|split; [|split]].
  - intros fuel Hfuel. apply (split_loop_more_fuel _ (S (length coordinates))); [done|lia].
  - rewrite Hlen. by rewrite Nat.sub_0_r.
  - done.
  - by rewrite Hcat.
Qed.

Lemma chunk_count_le (n : nat) : ((n + 99) / 100 <= n)%nat.
Proof.
  destruct n as [|n]; [done|].
  apply Nat.Div0.div_le_upper_bound. lia.
Qed.

(* ===================================================================== *)
(** * The fetch loop *)
(* ===================================================================== *)

Lemma forEach_points_flag (chunk : list coord) (data : list json) :
  forall index stored stored',
    (forEach_points chunk index data stored).2 = (forEach_points chunk index data stored').2.
Proof.
  induction data as [|point rest IH]; intros index stored stored';
    cbn -[truthy hourly_series]; [done|].
  destruct (hourly_series point) as [[]|[series|]]; [done| |by apply IH].
  destruct (truthy (Some series)); by apply IH.
Qed.

Lemma process_response_flag (chunk : list coord) (data : json) stored stored' :
  (process_response chunk data stored).2 = (process_response chunk data stored').2.
Proof. destruct data; cbn; try done. apply forEach_points_flag. Qed.

Ltac simpl_state := cbn [chunks position weatherData processedChunks events].

Lemma loop_body_pass (w : world) (total : nat) (s : loop_state) (chunk : list coord) :
  pass w total s chunk (loop_body w total s chunk).
Proof.
  unfold loop_body, catch_block.
  destruct (fetch w (position s) (request_url chunk)) as [|status body] eqn:Hf.
  - simpl_state. apply pass_failed; [unfold pass_raises; by rewrite Hf|done].
  - destruct (response_ok status) eqn:Hok.
    + destruct body as [data|].
      * simpl_state.
        destruct (process_response chunk data (weatherData s)) as [wd raised] eqn:Hp.
        assert ((process_response chunk data []).2 = raised) as Hflag.
        { rewrite (process_response_flag _ _ _ (weatherData s)). by rewrite Hp. }
        destruct raised.
        -- simpl_state. apply pass_failed; unfold pass_raises, fetch_fails; rewrite Hf, Hok;
             [by rewrite Hflag|done].
        -- destruct (updateProgress_returns w (position s)) eqn:Hcb; simpl_state.
           ++ apply pass_completed. unfold pass_raises.
              by rewrite Hf, Hok, Hflag, Hcb.
           ++ apply pass_callback_threw; unfold pass_raises, fetch_fails;
                rewrite ?Hf, ?Hok, ?Hflag, ?Hcb; done.
      * simpl_state. apply pass_failed; unfold pass_raises, fetch_fails; rewrite Hf, Hok; done.
    + simpl_state. apply pass_failed; unfold pass_raises, fetch_fails; rewrite Hf, Hok; done.
Qed.

Lemma errors_app evs evs' : errors (evs ++ evs') = (errors evs + errors evs')%nat.
Proof. unfold errors. by rewrite omap_app, length_app. Qed.

Lemma waits_app evs evs' : waits (evs ++ evs') = (waits evs + waits evs')%nat.
Proof. unfold waits. by rewrite omap_app, length_app. Qed.

Lemma requests_app evs evs' : requests (evs ++ evs') = requests evs ++ requests evs'.
Proof. unfold requests. by rewrite omap_app. Qed.

Lemma progress_values_app evs evs' :
  progress_values (evs ++ evs') = progress_values evs ++ progress_values evs'.
Proof. unfold progress_values. by rewrite omap_app. Qed.

Lemma seq_snoc (start len : nat) : seq start (S len) = seq start len ++ [(start + len)%nat].
Proof. by rewrite seq_S. Qed.

Ltac count_events :=
  unfold errors, waits, requests, progress_values in *;
  rewrite ?omap_app, ?length_app; cbn -[percent seq request_url];
  rewrite ?app_nil_r, ?length_app; cbn [length].

Lemma pass_keeps_invariant (w : world) (total : nat) (s s' : loop_state)
    (chunk : list coord) :
  chunks s !! position s = Some chunk ->
  pass w total s chunk s' ->
  loop_invariant total s -> loop_invariant total s'.
Proof.
  intros Hlook Hpass [Hq Hp Hb Hr Hv Hw].
  apply lookup_lt_Some in Hlook.
  destruct Hpass; constructor; simpl_state; count_events; try lia; try assumption.
  - rewrite Hv, seq_snoc, map_app. done.
  - rewrite Hv, seq_snoc, map_app. done.
Qed.

Lemma after_passes_invariant (w : world) (total : nat) :
  forall (n : nat) (s s' : loop_state),
    loop_invariant total s -> after_passes n w total s = Some s' ->
    loop_invariant total s'.
Proof.
  induction n as [|n IH]; intros s s' Hinv H; cbn in H.
  - by injection H as <-.
  - destruct (chunks s !! position s) as [chunk|] eqn:Hlook; [|done].
    apply (IH _ _ (pass_keeps_invariant w total s _ chunk Hlook (loop_body_pass _ _ _ _) Hinv) H).
Qed.

Lemma initial_invariant (initial : list (list coord)) (stored : list WeatherRecord) :
  loop_invariant (length initial) (mkState initial 0 stored 0 []).
Proof. constructor; cbn; try done; lia. Qed.

Lemma run_loop_passes (w : world) (total : nat) :
  forall (fuel : nat) (s s' : loop_state),
    run_loop fuel w total s = Some s' ->
    exists n, (n < fuel)%nat /\ after_passes n w total s = Some s' /\
              chunks s' !! position s' = None.
Proof.
  induction fuel as [|fuel IH]; intros s s' H; [done|]. cbn in H.
  destruct (chunks s !! position s) as [chunk|] eqn:Hlook.
  - destruct (IH _ _ H) as (n & Hn & Hafter & Hend).
    exists (S n). cbn. rewrite Hlook. split; [lia|done].
  - injection H as <-. exists 0%nat. split; [lia|done].
Qed.

Lemma run_loop_never_ends (w : world) (total : nat) :
  forall (fuel : nat) (s : loop_state),
    (forall n, is_Some (after_passes n w total s)) ->
    run_loop fuel w total s = None.
Proof.
  induction fuel as [|fuel IH]; intros s Hall; [done|]. cbn.
  destruct (chunks s !! position s) as [chunk|] eqn:Hlook.
  - apply IH. intros n. specialize (Hall (S n)). cbn in Hall. by rewrite Hlook in Hall.
  - specialize (Hall 1%nat). cbn in Hall. rewrite Hlook in Hall. by destruct Hall.
Qed.

Lemma run_loop_invariant (w : world) (total fuel : nat) (s s' : loop_state) :
  loop_invariant total s -> run_loop fuel w total s = Some s' ->
  loop_invariant total s' /\ position s' = length (chunks s').
Proof.
  intros Hinv H. destruct (run_loop_passes _ _ _ _ _ H) as (n & _ & Hafter & Hend).
  pose proof (after_passes_invariant _ _ _ _ _ Hinv Hafter) as Hinv'.
  split; [done|]. apply lookup_ge_None in Hend. destruct Hinv'. lia.
Qed.

(** ** The percentage *)

Lemma inject_nat_pos (n : nat) : (0 < n)%nat -> (0 < inject_Z (Z.of_nat n))%Q.
Proof. intros H. change 0%Q with (inject_Z 0). rewrite <- Zlt_Qlt. lia. Qed.

Lemma percent_at_most_100 (k total : nat) :
  (k <= total)%nat -> (percent k total <= 100)%Q.
Proof.
  intros Hk. unfold percent.
  assert (inject_Z (Z.of_nat k) / inject_Z (Z.of_nat total) <= 1)%Q as H.
  { destruct total as [|total].
    - replace k with 0%nat by lia. vm_compute. discriminate.
    - apply Qle_shift_div_r; [apply inject_nat_pos; lia|].
      rewrite Qmult_1_l. rewrite <- Zle_Qle. lia. }
  apply binary64_mono in H. rewrite binary64_1 in H.
  rewrite <- binary64_100 at 2. apply binary64_mono. lra.
Qed.

Lemma percent_full (total : nat) : (0 < total)%nat -> percent total total = 100%Q.
Proof.
  intros Ht. unfold percent.
  assert (inject_Z (Z.of_nat total) / inject_Z (Z.of_nat total) == 1)%Q as H.
  { pose proof (inject_nat_pos total Ht). field. lra. }
  rewrite (binary64_proper _ _ H), binary64_1. apply binary64_100.
Qed.

(** The quotient [k / total] of two counters below [2^32], as the script
    rounds it, is in the normal range and within [2^-53] of the exact one. *)
Lemma quotient_rounded (k total : nat) :
  (0 < k)%nat -> (0 < total)%nat -> (Z.of_nat total < 2 ^ 32)%Z ->
  let x := (inject_Z (Z.of_nat k) / inject_Z (Z.of_nat total))%Q in
  (1 # 4294967296 <= x)%Q /\ (2 ^ (-1022) <= x)%Q /\
  (x * (1 - 2 ^ (-53)) <= binary64 x <= x * (1 + 2 ^ (-53)))%Q /\
  (2 ^ (-1022) <= binary64 x * 100)%Q.
Proof.
  intros Hk Ht Htb x.
  pose proof (inject_nat_pos total Ht) as HN.
  assert (1 <= inject_Z (Z.of_nat k))%Q as HK
    by (change 1%Q with (inject_Z 1); rewrite <- Zle_Qle; lia).
  assert (inject_Z (Z.of_nat total) <= 4294967296)%Q as HNb
    by (change 4294967296%Q with (inject_Z (2 ^ 32)); rewrite <- Zle_Qle; lia).
  assert (1 # 4294967296 <= x)%Q as Hx.
  { unfold x. apply Qle_shift_div_l; [done|]. lra. }
  assert (2 ^ (-1022) <= 1 # 4294967296)%Q as Hsmall
    by (change (1 # 4294967296)%Q with (2 ^ (-32))%Q; by apply pow2_le).
  assert (2 ^ (-1022) <= x)%Q as Hnormal by lra.
  split; [done|]. split; [done|].
  pose proof (binary64_error x Hnormal) as Herr. split; [done|].
  assert (2 ^ (-53) == 1 # 9007199254740992)%Q as Hu by reflexivity.
  rewrite Hu in Herr. lra.
Qed.

Lemma percent_increasing (k k' total : nat) :
  (0 < k)%nat -> (k < k')%nat -> (Z.of_nat k < 2 ^ 32)%Z ->
  (0 < total)%nat -> (Z.of_nat total < 2 ^ 32)%Z ->
  (percent k total < percent k' total)%Q.
Proof.
  intros Hk Hkk Hkb Ht Htb. unfold percent.
  destruct (quotient_rounded k total Hk Ht Htb) as (Hx & Hnormal & _ & Hnormal').
  pose proof (inject_nat_pos total Ht) as HN.
  assert (1 <= inject_Z (Z.of_nat k))%Q as HK1
    by (change 1%Q with (inject_Z 1); rewrite <- Zle_Qle; lia).
  assert (inject_Z (Z.of_nat k) <= 4294967296)%Q as HK2
    by (change 4294967296%Q with (inject_Z (2 ^ 32)); rewrite <- Zle_Qle; lia).
  assert (inject_Z (Z.of_nat k) + 1 <= inject_Z (Z.of_nat k'))%Q as HK'.
  { change 1%Q with (inject_Z 1). rewrite <- inject_Z_plus, <- Zle_Qle. lia. }
  set (K := inject_Z (Z.of_nat k)) in *. set (K' := inject_Z (Z.of_nat k')) in *.
  set (N := inject_Z (Z.of_nat total)) in *.
  assert (0 < / N)%Q as Hi by (by apply Qinv_lt_0_compat).
  assert (K / N * (1 + 2 * (1 # 8589934592)) <= K' / N)%Q as Hgap.
  { unfold Qdiv.
    assert ((K + 1) * / N <= K' * / N)%Q by (apply Qmult_le_compat_r; lra).
    assert (K * (1 # 4294967296) * / N <= 1 * / N)%Q by (apply Qmult_le_compat_r; lra).
    assert (K * / N * (1 + 2 * (1 # 8589934592))
            == K * / N + K * (1 # 4294967296) * / N)%Q as -> by ring.
    assert ((K + 1) * / N == K * / N + 1 * / N)%Q as Hsum by ring.
    lra. }
  destruct (binary64_gap (K / N) (K' / N) (1 # 8589934592) Hnormal) as [Hstep _].
  { vm_compute. discriminate. }
  { exact Hgap. }
  apply (binary64_gap (binary64 (K / N) * 100) (binary64 (K' / N) * 100)
           (1 # 17179869184) Hnormal').
  - vm_compute. discriminate.
  - lra.
Qed.

(** The reported value is the double nearest to a product of the double
    nearest to [k / total]: it differs from [100 * k / total] by less than
    one part in [2^51]. *)
Lemma percent_close (k total : nat) :
  (0 < k)%nat -> (0 < total)%nat -> (Z.of_nat total < 2 ^ 32)%Z ->
  (Qabs (percent k total - 100 * inject_Z (Z.of_nat k) / inject_Z (Z.of_nat total))
   <= 100 * inject_Z (Z.of_nat k) / inject_Z (Z.of_nat total) * 2 ^ (-51))%Q.
Proof.
  intros Hk Ht Htb. unfold percent.
  destruct (quotient_rounded k total Hk Ht Htb) as (Hx & _ & [Ha1 Ha2] & Hnormal').
  pose proof (binary64_error _ Hnormal') as [Hv1 Hv2].
  assert (100 * inject_Z (Z.of_nat k) / inject_Z (Z.of_nat total)
          == inject_Z (Z.of_nat k) / inject_Z (Z.of_nat total) * 100)%Q as ->.
  { pose proof (inject_nat_pos total Ht). field. lra. }
  set (x := (inject_Z (Z.of_nat k) / inject_Z (Z.of_nat total))%Q) in *.
  set (a := binary64 x) in *. set (v := binary64 (a * 100)) in *.
  assert (2 ^ (-53) == 1 # 9007199254740992)%Q as Hu by reflexivity.
  assert (2 ^ (-51) == 1 # 2251799813685248)%Q as Hu' by reflexivity.
  rewrite Hu in Ha1, Ha2, Hv1, Hv2. rewrite Hu'.
  assert (0 < a)%Q as Hapos by lra.
  assert (a * 100 * (1 + (1 # 9007199254740992))
          <= x * (1 + (1 # 9007199254740992)) * 100 * (1 + (1 # 9007199254740992)))%Q
    by (apply Qmult_le_compat_r; lra).
  assert (x * (1 - (1 # 9007199254740992)) * 100 * (1 - (1 # 9007199254740992))
          <= a * 100 * (1 - (1 # 9007199254740992)))%Q
    by (apply Qmult_le_compat_r; lra).
  apply Qabs_Qle_condition. split; lra.
Qed.

Lemma last_percent (total : nat) :
  (0 < total)%nat ->
  last (map (fun k => percent k total) (seq 1 total)) = Some 100%Q.
Proof.
  intros Ht. rewrite <- (percent_full total Ht).
  change (percent total total) with ((fun k => percent k total) total).
  generalize (fun k => percent k total) at 1 2. intros f.
  destruct total as [|t]; [lia|].
  rewrite seq_snoc, map_app. cbn [map Nat.add]. by rewrite last_snoc.
Qed.

(** ** With a progress callback that returns *)

Lemma pass_counts_with_returning_callback (w : world) (total : nat)
    (s s' : loop_state) (chunk : list coord) :
  (forall n, updateProgress_returns w n = true) ->
  pass w total s chunk s' ->
  processedChunks s = waits (events s) ->
  processedChunks s' = waits (events s').
Proof.
  intros Hcb Hpass Hc.
  destruct Hpass; simpl_state; count_events; try lia.
  rewrite Hcb in *. discriminate.
Qed.

Lemma after_passes_counts (w : world) (total : nat) :
  (forall n, updateProgress_returns w n = true) ->
  forall (n : nat) (s s' : loop_state),
    processedChunks s = waits (events s) ->
    after_passes n w total s = Some s' ->
    processedChunks s' = waits (events s').
Proof.
  intros Hcb. induction n as [|n IH]; intros s s' Hc H; cbn in H.
  - by injection H as <-.
  - destruct (chunks s !! position s) as [chunk|] eqn:Hlook; [|done].
    apply (IH _ _ (pass_counts_with_returning_callback w total s _ chunk Hcb
                     (loop_body_pass _ _ _ _) Hc) H).
Qed.

Lemma split_loop_agree (coordinates : list coord) (fuel fuel' : nat)
    (a b : list (list coord)) :
  split_loop fuel 0 coordinates [] = Some a ->
  split_loop fuel' 0 coordinates [] = Some b -> a = b.
Proof.
  intros Ha Hb.
  apply (split_loop_more_fuel _ _ (fuel `max` fuel')) in Ha; [|lia].
  apply (split_loop_more_fuel _ _ (fuel `max` fuel')) in Hb; [|lia].
  congruence.
Qed.

(** C10 (as the code has it). When the progress callback returns each time
    it is called: the reported values are what the script computes from
    [k / totalChunks * 100] for [k = 1, 2, ...] up to the counter, none above
    100; for an array of coordinates (fewer than [2^32] of them) they are
    strictly increasing and within one part in [2^51] of
    [100 * k / totalChunks]; a pass that ends in the [catch] block reports
    nothing and leaves the counter alone; and when [fetchData] returns, the
    values run through [k = totalChunks], the last one being exactly 100 if
    there is any. *)
Theorem progress_with_returning_callback (w : world) (stored : list WeatherRecord)
    (coordinates : list coord) (initial : list (list coord)) :
  (forall n, updateProgress_returns w n = true) ->
  split_loop (S (length coordinates)) 0 coordinates [] = Some initial ->
  (forall n s,
     after_passes n w (length initial) (mkState initial 0 stored 0 []) = Some s ->
     (processedChunks s <= length initial)%nat /\
     progress_values (events s) =
       map (fun k => percent k (length initial)) (seq 1 (processedChunks s)) /\
     Forall (fun p => (p <= 100)%Q) (progress_values (events s)) /\
     ((Z.of_nat (length coordinates) < 2 ^ 32)%Z ->
      (forall i j a b, (i < j)%nat ->
         progress_values (events s) !! i = Some a ->
         progress_values (events s) !! j = Some b -> (a < b)%Q) /\
      (forall i p, progress_values (events s) !! i = Some p ->
         (Qabs (p - 100 * inject_Z (Z.of_nat (S i)) / inject_Z (Z.of_nat (length initial)))
          <= 100 * inject_Z (Z.of_nat (S i)) / inject_Z (Z.of_nat (length initial))
             * 2 ^ (-51))%Q)) /\
     (forall chunk, chunks s !! position s = Some chunk ->
        pass_raises w (position s) chunk = true ->
        progress_values (events (loop_body w (length initial) s chunk)) =
          progress_values (events s) /\
        processedChunks (loop_body w (length initial) s chunk) = processedChunks s)) /\
  (forall fuel data evs,
     fetchData fuel w stored coordinates = Some (data, evs) ->
     progress_values evs =
       map (fun k => percent k (length initial)) (seq 1 (length initial)) /\
     ((0 < length initial)%nat -> last (progress_values evs) = Some 100%Q)).
Proof.
  intros Hcb Hsplit.
  assert (length initial <= length coordinates)%nat as Hcount.
  { destruct (initial_chunks coordinates) as (initial' & Hsplit' & Hlen & _).
    rewrite (Hsplit' (S (length coordinates))) in Hsplit by lia.
    injection Hsplit as <-. rewrite Hlen. apply chunk_count_le. }
  remember (length initial) as total eqn:Htotal.
  pose proof (initial_invariant initial stored) as Hinit. rewrite <- Htotal in Hinit.
  split.
  - intros n s Hafter.
    pose proof (after_passes_invariant w total n _ _ Hinit Hafter)
      as [Hq Hp Hb Hr Hv Hw].
    pose proof (after_passes_counts w total Hcb n (mkState initial 0 stored 0 []) s eq_refl
                  Hafter) as Hc.
    assert (processedChunks s <= total)%nat as Hle by lia.
    split; [done|]. split; [done|]. split; [|split].
    + rewrite Hv. apply Forall_forall. intros p Hin.
      apply list_elem_of_fmap in Hin as (k & -> & Hk).
      apply list_elem_of_In, in_seq in Hk. apply percent_at_most_100. lia.
    + intros Harray. split.
      * intros i j a b Hij Ha Hb'. rewrite Hv in Ha, Hb'.
        rewrite list_lookup_fmap in Ha, Hb'.
        destruct (seq 1 (processedChunks s) !! i) as [ki|] eqn:Hi; [|done].
        destruct (seq 1 (processedChunks s) !! j) as [kj|] eqn:Hj; [|done].
        injection Ha as <-. injection Hb' as <-.
        apply lookup_seq in Hi as [-> Hi]. apply lookup_seq in Hj as [-> Hj].
        apply percent_increasing; lia.
      * intros i p Hi. rewrite Hv, list_lookup_fmap in Hi.
        destruct (seq 1 (processedChunks s) !! i) as [ki|] eqn:Hki; [|done].
        injection Hi as <-. apply lookup_seq in Hki as [-> Hki].
        apply percent_close; lia.
    + intros chunk Hlook Hraise.
      pose proof (loop_body_pass w total s chunk) as Hpass.
      destruct Hpass as [wd Hno|wd _ _|wd _ _ Hthrow]; simpl_state.
      * congruence.
      * split; [|done]. rewrite !progress_values_app. cbn. by rewrite !app_nil_r.
      * rewrite Hcb in Hthrow. discriminate.
  - intros fuel data evs Hfetch. unfold fetchData in Hfetch.
    destruct (split_loop fuel 0 coordinates []) as [initial'|] eqn:Hsplit'; [|done].
    assert (initial' = initial) as -> by (eapply split_loop_agree; eassumption).
    rewrite <- Htotal in Hfetch.
    destruct (run_loop fuel w total (mkState initial 0 stored 0 [])) as [s|] eqn:Hrun; [|done].
    injection Hfetch as <- <-.
    destruct (run_loop_passes _ _ _ _ _ Hrun) as (n & _ & Hafter & _).
    destruct (run_loop_invariant _ _ _ _ _ Hinit Hrun) as [[Hq Hp Hb Hr Hv Hw] Hend].
    pose proof (after_passes_counts w total Hcb n (mkState initial 0 stored 0 []) s eq_refl
                  Hafter) as Hc.
    assert (processedChunks s = total) as Hall by lia.
    rewrite Hv, Hall. split; [done|]. intros Hpos.
    by apply last_percent.
Qed.

(** Three chunks: the script reports 33.33333333333333, 66.66666666666666
    and 100, the first two one unit in the last place below the doubles
    nearest to [100 / 3] and [200 / 3]. *)
Lemma progress_with_returning_callback_witness :
  exists data evs,
    fetchData 300 calm_world [] (repeat (24, -126)%Q 201) = Some (data, evs) /\
    progress_values evs =
      [2345624805922133 # 70368744177664; 2345624805922133 # 35184372088832; 100]%Q /\
    (forall i j a b, (i < j)%nat ->
       progress_values evs !! i = Some a -> progress_values evs !! j = Some b -> (a < b)%Q).
Proof.
  destruct (progress_with_returning_callback calm_world []
              (repeat (24, -126)%Q 201)
              [repeat (24, -126)%Q 100; repeat (24, -126)%Q 100; [(24, -126)%Q]]
              (fun _ => eq_refl) eq_refl) as [Hpass Hret].
  assert (exists s,
            after_passes 3 calm_world 3
              (mkState [repeat (24, -126)%Q 100; repeat (24, -126)%Q 100; [(24, -126)%Q]]
                       0 [] 0 []) = Some s /\
            fetchData 300 calm_world [] (repeat (24, -126)%Q 201)
            = Some (weatherData s, events s))
    as (s & Hs & Hfetch) by (vm_compute; eexists; split; reflexivity).
  exists (weatherData s), (events s). split; [exact Hfetch|].
  destruct (Hpass 3%nat s Hs) as (_ & _ & _ & Hguard & _).
  destruct (Hguard eq_refl) as [Hstrict _].
  split; [|exact Hstrict].
  rewrite (proj1 (Hret 300%nat _ _ Hfetch)). vm_compute. reflexivity.
Defined.

(** C10 as stated fails when the callback throws: the pass is retried after
    its progress was reported, and the next report is 200. *)
Lemma progress_exceeds_100_when_callback_throws :
  exists evs,
    fetchData 3 callback_throws_once [] [(24, -126)%Q] = Some ([], evs) /\
    progress_values evs = [100; 200]%Q /\
    errors evs = 1%nat /\
    ~ Forall (fun p => (p <= 100)%Q) (progress_values evs).
Proof.
  eexists. split; [vm_compute; reflexivity|]. split; [reflexivity|].
  split; [reflexivity|]. intros H.
  apply Forall_cons in H as [_ H]. apply Forall_cons in H as [H _].
  revert H. vm_compute. intros H. by apply H.
Qed.

(** ** Failing passes *)

Lemma loop_body_on_failure (w : world) (total : nat) (s : loop_state) (c : list coord) :
  fetch_fails (fetch w (position s) (request_url c)) = true ->
  loop_body w total s c =
  mkState (chunks s ++ [c]) (S (position s)) (weatherData s) (processedChunks s)
          ((events s ++ [Requested (request_url c)]) ++ [ErrorLogged]).
Proof.
  unfold loop_body, catch_block, fetch_fails.
  destruct (fetch w (position s) (request_url c)) as [|status [data|]]; [done|..];
    destruct (response_ok status) eqn:Hok; cbn; done.
Qed.

Lemma pass_queue (w : world) (total : nat) (s s' : loop_state) (c : list coord) :
  pass w total s c s' ->
  position s' = S (position s) /\ (chunks s' = chunks s \/ chunks s' = chunks s ++ [c]).
Proof. intros H. destruct H; simpl_state; auto. Qed.

Lemma pending_chunk_stays (w : world) (total : nat) (chunk : list coord) :
  (forall n, fetch_fails (fetch w n (request_url chunk)) = true) ->
  forall (n : nat) (s : loop_state),
    (exists j, (position s <= j)%nat /\ chunks s !! j = Some chunk) ->
    exists s', after_passes n w total s = Some s' /\
               exists j, (position s' <= j)%nat /\ chunks s' !! j = Some chunk.
Proof.
  intros Hfail. induction n as [|n IH]; intros s (j & Hj & Hlook).
  - exists s. split; [done|]. by exists j.
  - cbn. pose proof (lookup_lt_Some _ _ _ Hlook) as Hlen.
    destruct (lookup_lt_is_Some_2 (chunks s) (position s)) as [c Hc]; [lia|].
    rewrite Hc. apply IH.
    destruct (decide (j = position s)) as [->|Hne].
    + assert (c = chunk) as -> by congruence.
      rewrite loop_body_on_failure by apply Hfail. simpl_state.
      exists (length (chunks s)). split; [lia|].
      rewrite lookup_app_r by lia. by rewrite Nat.sub_diag.
    + destruct (pass_queue _ _ _ _ _ (loop_body_pass w total s c)) as [-> [->| ->]];
        exists j; (split; [lia|]); [done|].
      by rewrite lookup_app_l.
Qed.

(** C2. A pass whose request fails (rejected fetch, status outside 2xx,
    unparseable body) puts its chunk back at the end of the queue and changes
    nothing else but the log; so when the request of one of the chunks fails
    every time, that chunk is still waiting after any number of passes and
    [fetchData] returns for no amount of fuel. *)
Theorem failing_chunk_is_retried_forever (w : world) (stored : list WeatherRecord)
    (coordinates : list coord) (initial : list (list coord)) (chunk : list coord) :
  split_loop (S (length coordinates)) 0 coordinates [] = Some initial ->
  chunk ∈ initial ->
  (forall n, fetch_fails (fetch w n (request_url chunk)) = true) ->
  (forall total s c,
     chunks s !! position s = Some c ->
     fetch_fails (fetch w (position s) (request_url c)) = true ->
     loop_body w total s c =
     mkState (chunks s ++ [c]) (S (position s)) (weatherData s) (processedChunks s)
             ((events s ++ [Requested (request_url c)]) ++ [ErrorLogged])) /\
  (forall n, exists s,
     after_passes n w (length initial) (mkState initial 0 stored 0 []) = Some s /\
     exists j, (position s <= j)%nat /\ chunks s !! j = Some chunk) /\
  (forall fuel, fetchData fuel w stored coordinates = None).
Proof.
  intros Hsplit Hin Hfail.
  assert (forall n, exists s,
     after_passes n w (length initial) (mkState initial 0 stored 0 []) = Some s /\
     exists j, (position s <= j)%nat /\ chunks s !! j = Some chunk) as Hpending.
  { intros n. apply pending_chunk_stays; [done|].
    apply list_elem_of_lookup in Hin as [j Hj]. exists j. cbn. split; [lia|done]. }
  split; [|split].
  - intros total s c _ Hf. by apply loop_body_on_failure.
  - exact Hpending.
  - intros fuel. unfold fetchData.
    destruct (split_loop fuel 0 coordinates []) as [initial'|] eqn:Hsplit'; [|done].
    assert (initial' = initial) as -> by (eapply split_loop_agree; eassumption).
    rewrite run_loop_never_ends; [done|].
    intros n. destruct (Hpending n) as (s & -> & _). by eexists.
Qed.

Lemma failing_chunk_is_retried_forever_witness :
  fetchData 1000 offline_world [] [(24, -126)%Q] = None.
Proof.
  apply (proj2 (proj2 (failing_chunk_is_retried_forever offline_world []
                         [(24, -126)%Q] [[(24, -126)%Q]] [(24, -126)%Q]
                         eq_refl (list_elem_of_here _ _) (fun _ => eq_refl)))
               1000%nat).
Defined.

(** C4 (the code against the claim). A pass that ends in the [catch] block
    adds no wait: with the first request rejected, the retry is requested
    right after the error is logged, and the only 100 ms wait follows the
    successful pass. *)
Theorem failed_pass_is_not_followed_by_a_wait :
  (forall w total s chunk,
     pass_raises w (position s) chunk = true ->
     waits (events (loop_body w total s chunk)) = waits (events s)) /\
  (forall w total s chunk,
     pass_raises w (position s) chunk = false ->
     last (events (loop_body w total s chunk)) = Some (Waited 100)) /\
  fetchData 3 fails_first [] [(24, -126)%Q] =
  Some ([], [Requested (request_url [(24, -126)%Q]); ErrorLogged;
             Requested (request_url [(24, -126)%Q]); Progress 100; Waited 100]).
Proof.
  split; [|split].
  - intros w total s chunk Hraise.
    destruct (loop_body_pass w total s chunk) as [wd Hno|wd _ _|wd _ _ _]; simpl_state.
    + congruence.
    + count_events. lia.
    + count_events. lia.
  - intros w total s chunk Hno.
    destruct (loop_body_pass w total s chunk) as [wd _|wd Hr _|wd Hr _ _]; simpl_state.
    + by rewrite last_snoc.
    + congruence.
    + congruence.
  - vm_compute. reflexivity.
Qed.

(** ** Passes that all go through *)

Lemma run_loop_without_raise (w : world) (total : nat) :
  (forall n c, pass_raises w n c = false) ->
  forall (fuel : nat) (s : loop_state),
    (length (chunks s) - position s < fuel)%nat ->
    exists s',
      run_loop fuel w total s = Some s' /\
      requests (events s') =
        requests (events s) ++ map request_url (drop (position s) (chunks s)) /\
      errors (events s') = errors (events s).
Proof.
  intros Hno. induction fuel as [|fuel IH]; intros s Hfuel; [lia|]. cbn [run_loop].
  destruct (chunks s !! position s) as [chunk|] eqn:Hlook.
  - pose proof (lookup_lt_Some _ _ _ Hlook) as Hlen.
    destruct (loop_body_pass w total s chunk) as [wd _|wd Hr _|wd Hr _ _];
      [|rewrite Hno in Hr; discriminate..].
    edestruct IH as (s' & Hrun & Hreq & Herr); [|exists s'; split; [exact Hrun|]].
    { simpl_state. lia. }
    revert Hreq Herr. simpl_state. intros Hreq Herr. split.
    + rewrite Hreq. rewrite !requests_app. cbn -[request_url].
      rewrite !app_nil_r, <- app_assoc. f_equal.
      by rewrite (drop_S _ _ _ Hlook).
    + rewrite Herr. rewrite !errors_app. cbn. lia.
  - exists s. split; [done|]. apply lookup_ge_None in Hlook.
    rewrite drop_ge by lia. by rewrite app_nil_r.
Qed.

(** C8. The chunking loop cuts the [N] coordinates, in order, into
    [ceil(N/100)] chunks of 1 to 100 coordinates each; when no pass ends in
    the [catch] block, [fetchData] returns having made exactly one request
    per chunk, in chunk order; and whenever it returns, the requests number
    the chunks plus the logged errors. *)
Theorem one_request_per_chunk (w : world) (stored : list WeatherRecord)
    (coordinates : list coord) :
  exists initial,
    (forall fuel, (length coordinates < fuel)%nat ->
       split_loop fuel 0 coordinates [] = Some initial) /\
    length initial = ((length coordinates + 99) / 100)%nat /\
    Forall (fun c => (1 <= length c <= 100)%nat) initial /\
    concat initial = coordinates /\
    ((forall n c, pass_raises w n c = false) ->
     forall fuel, (length coordinates < fuel)%nat ->
       exists data evs,
         fetchData fuel w stored coordinates = Some (data, evs) /\
         requests evs = map request_url initial /\
         length (requests evs) = ((length coordinates + 99) / 100)%nat) /\
    (forall fuel data evs,
       fetchData fuel w stored coordinates = Some (data, evs) ->
       length (requests evs) = (length initial + errors evs)%nat).
Proof.
  destruct (initial_chunks coordinates) as (initial & Hsplit & Hlen & Hall & Hcat).
  exists initial. repeat split; try done.
  - intros Hno fuel Hfuel. unfold fetchData. rewrite (Hsplit fuel Hfuel).
    destruct (run_loop_without_raise w (length initial) Hno fuel
                (mkState initial 0 stored 0 [])) as (s & Hrun & Hreq & _).
    { simpl_state. pose proof (chunk_count_le (length coordinates)). lia. }
    rewrite Hrun. exists (weatherData s), (events s). split; [done|].
    revert Hreq. simpl_state. cbn [requests omap drop app]. intros Hreq.
    assert (requests (events s) = map request_url initial) as Hr by exact Hreq.
    split; [done|]. by rewrite Hr, length_map.
  - intros fuel data evs Hfetch. unfold fetchData in Hfetch.
    destruct (split_loop fuel 0 coordinates []) as [initial'|] eqn:Hsplit'; [|done].
    assert (initial' = initial) as ->.
    { eapply split_loop_agree; [exact Hsplit'|]. apply (Hsplit (S (length coordinates))). lia. }
    destruct (run_loop fuel w (length initial) (mkState initial 0 stored 0 []))
      as [s|] eqn:Hrun; [|done].
    injection Hfetch as <- <-.
    destruct (run_loop_invariant _ _ _ _ _ (initial_invariant initial stored) Hrun)
      as [[Hq Hp Hb Hr Hv Hw] Hend].
    lia.
Qed.

Lemma one_request_per_chunk_witness :
  exists initial,
    length initial = 1%nat /\
    exists data evs,
      fetchData 2 calm_world [] [(24, -126)%Q] = Some (data, evs) /\
      requests evs = map request_url initial.
Proof.
  destruct (one_request_per_chunk calm_world [] [(24, -126)%Q])
    as (initial & _ & Hlen & _ & _ & Hrun & _).
  exists initial. split; [exact Hlen|].
  destruct (Hrun (fun _ _ => eq_refl) 2%nat ltac:(cbn; lia)) as (data & evs & Hf & Hr & _).
  exists data, evs. split; assumption.
Defined.

(* ===================================================================== *)
(** * The grid *)
(* ===================================================================== *)

Lemma Qfloor_unique (q : Q) (z : Z) :
  (inject_Z z <= q)%Q -> (q < inject_Z (z + 1))%Q -> Qfloor q = z.
Proof.
  intros Hlo Hhi.
  pose proof (Qfloor_le q) as Hfl. pose proof (Qlt_floor q) as Hfu.
  assert (inject_Z (Qfloor q) < inject_Z (z + 1))%Q as H1 by lra.
  assert (inject_Z z < inject_Z (Qfloor q + 1))%Q as H2 by lra.
  rewrite <- Zlt_Qlt in H1, H2. lia.
Qed.

Lemma Qfloor_shift (q : Q) (z : Z) : Qfloor (q + inject_Z z) = (Qfloor q + z)%Z.
Proof.
  pose proof (Qfloor_le q) as Hfl. pose proof (Qlt_floor q) as Hfu.
  apply Qfloor_unique.
  - rewrite inject_Z_plus. lra.
  - rewrite !inject_Z_plus in *. lra.
Qed.

Lemma toFixed4_proper (x y : Q) : (x == y)%Q -> toFixed4 x = toFixed4 y.
Proof.
  intros H. unfold toFixed4.
  rewrite (Qleb_comp 0%Q 0%Q (Qeq_refl 0%Q) x y H).
  destruct (negb (Qle_bool 0 y)); cbn zeta.
  - rewrite (Qfloor_comp (- x * 10000 + (1 # 2))%Q (- y * 10000 + (1 # 2))%Q); [done|].
    by rewrite H.
  - rewrite (Qfloor_comp (x * 10000 + (1 # 2))%Q (y * 10000 + (1 # 2))%Q); [done|].
    by rewrite H.
Qed.

Lemma round4_exact (x : Q) : four_decimals x -> (round4 x == x)%Q.
Proof.
  unfold four_decimals, round4, Math_round. intros H.
  rewrite Qred_correct.
  assert (Qfloor (x * 10000 + (1 # 2)) = Qfloor (x * 10000)) as ->.
  { pose proof (Qfloor_le (x * 10000)%Q). pose proof (Qlt_floor (x * 10000)%Q).
    apply Qfloor_unique.
    - lra.
    - rewrite inject_Z_plus. change (inject_Z 1) with 1%Q. lra. }
  rewrite H. field.
Qed.

Lemma coord_key_rounded (lat lon : Q) :
  four_decimals lat -> four_decimals lon ->
  coord_key (round4 lat, round4 lon) = coord_key (lat, lon).
Proof.
  intros Hlat Hlon. unfold coord_key. cbn [fst snd].
  by rewrite (toFixed4_proper _ _ (round4_exact lat Hlat)),
             (toFixed4_proper _ _ (round4_exact lon Hlon)).
Qed.

Lemma four_decimals_step (x : Q) : four_decimals x -> four_decimals (Qred (x + step)).
Proof.
  unfold four_decimals. intros H.
  assert ((Qred (x + step) * 10000 == x * 10000 + inject_Z 2500)%Q) as Heq.
  { rewrite Qred_correct. unfold step. change (inject_Z 2500) with 2500%Q. field. }
  rewrite (Qfloor_comp _ _ Heq), Qfloor_shift, inject_Z_plus, H, Heq. reflexivity.
Qed.

Lemma four_decimals_integer (z : Z) : four_decimals (inject_Z z).
Proof.
  unfold four_decimals.
  assert ((inject_Z z * 10000 == inject_Z (z * 10000))%Q) as Heq.
  { rewrite inject_Z_mult. reflexivity. }
  by rewrite (Qfloor_comp _ _ Heq), Qfloor_Z, Heq.
Qed.

Lemma grid_inv_push (grid : list coord) (seen : gset string) (p : coord) (k : string) :
  coord_key p = k -> k ∉ seen -> grid_inv grid seen ->
  grid_inv (grid ++ [p]) ({[ k ]} ∪ seen).
Proof.
  intros Hk Hnew [Hnd Hseen]. split.
  - rewrite fmap_app. apply NoDup_app. split; [done|]. split.
    + intros k' Hin Hin'. cbn in Hin'. apply list_elem_of_singleton in Hin'.
      subst k'. rewrite Hk in Hin. apply Hnew. by apply Hseen.
    + cbn. apply NoDup_singleton.
  - intros k'. rewrite fmap_app, elem_of_union, elem_of_singleton, elem_of_app.
    cbn. rewrite list_elem_of_singleton, Hk, Hseen. tauto.
Qed.

Lemma grid_inv_perm (grid grid' : list coord) (seen : gset string) :
  grid ≡ₚ grid' -> grid_inv grid seen -> grid_inv grid' seen.
Proof.
  intros Hperm [Hnd Hseen]. split.
  - by rewrite <- Hperm.
  - intros k. rewrite Hseen. by rewrite Hperm.
Qed.

Lemma insert_by_lon_perm (p : coord) (sorted : list coord) :
  insert_by_lon p sorted ≡ₚ p :: sorted.
Proof.
  induction sorted as [|q rest IH]; cbn; [done|].
  destruct (Qle_bool (snd q) (snd p)); [|done].
  rewrite IH. apply Permutation_swap.
Qed.

Lemma sort_row_perm (row : list coord) : sort_row row ≡ₚ row.
Proof.
  unfold sort_row.
  assert (forall acc, fold_left (fun sorted p => insert_by_lon p sorted) row acc ≡ₚ row ++ acc)
    as H.
  { induction row as [|p row IH]; intros acc; cbn; [done|].
    rewrite IH, insert_by_lon_perm. by rewrite Permutation_middle. }
  rewrite H. by rewrite app_nil_r.
Qed.

Lemma lon_loop_inv (grid : list coord) :
  forall (fuel : nat) (lat lon : Q) (row : list coord) (seen : gset string) row' seen',
    four_decimals lat -> four_decimals lon ->
    grid_inv (grid ++ row) seen ->
    lon_loop fuel lat lon row seen = Some (row', seen') ->
    grid_inv (grid ++ row') seen'.
Proof.
  induction fuel as [|fuel IH]; intros lat lon row seen row' seen' Hlat Hlon Hinv H;
    [done|].
  cbn [lon_loop] in H. destruct (Qle_bool lon lonEnd).
  - cbn zeta in H. destruct (decide (coord_key (lat, lon) ∈ seen)) as [Hin|Hnew].
    + apply (IH _ _ _ _ _ _ Hlat (four_decimals_step _ Hlon) Hinv H).
    + apply (IH _ _ _ _ _ _ Hlat (four_decimals_step _ Hlon)) in H; [done|].
      rewrite app_assoc. apply grid_inv_push; [|done..].
      by apply coord_key_rounded.
  - by injection H as <- <-.
Qed.

Lemma lat_loop_inv :
  forall (fuel inner : nat) (lat : Q) (grid : list coord) (seen : gset string) grid' seen',
    four_decimals lat -> grid_inv grid seen ->
    lat_loop fuel inner lat grid seen = Some (grid', seen') ->
    grid_inv grid' seen'.
Proof.
  induction fuel as [|fuel IH]; intros inner lat grid seen grid' seen' Hlat Hinv H;
    [done|].
  cbn [lat_loop] in H. destruct (Qle_bool lat latEnd).
  - destruct (lon_loop inner lat lonStart [] seen) as [[row seen1]|] eqn:Hrow; [|done].
    apply (IH _ _ _ _ _ _ (four_decimals_step _ Hlat)) in H; [done|].
    apply (grid_inv_perm (grid ++ row)).
    + by rewrite sort_row_perm.
    + apply (lon_loop_inv grid inner lat lonStart [] seen row seen1 Hlat);
        [apply (four_decimals_integer (-126)) | by rewrite app_nil_r | exact Hrow].
  - by injection H as <- <-.
Qed.

Lemma add_extra_inv (st : list coord * gset string) (point : coord) :
  grid_inv st.1 st.2 ->
  grid_inv (add_extra st point).1 (add_extra st point).2 /\
  st.2 ⊆ (add_extra st point).2 /\
  coord_key point ∈ (add_extra st point).2.
Proof.
  intros Hinv. unfold add_extra. cbn zeta.
  destruct (decide (coord_key point ∈ st.2)) as [Hin|Hnew]; cbn [fst snd].
  - done.
  - split; [by apply grid_inv_push|]. split.
    + apply union_subseteq_r.
    + apply elem_of_union_l. by apply elem_of_singleton.
Qed.

Lemma extras_inv (points : list coord) :
  forall st : list coord * gset string,
    grid_inv st.1 st.2 ->
    grid_inv (fold_left add_extra points st).1 (fold_left add_extra points st).2 /\
    st.2 ⊆ (fold_left add_extra points st).2 /\
    forall p, p ∈ points -> coord_key p ∈ (fold_left add_extra points st).2.
Proof.
  induction points as [|point points IH]; intros st Hinv; cbn [fold_left].
  - split; [done|]. split; [done|]. intros p Hp. by apply elem_of_nil in Hp.
  - destruct (add_extra_inv st point Hinv) as (Hinv1 & Hsub1 & Hin1).
    destruct (IH _ Hinv1) as (Hinv2 & Hsub2 & Hin2).
    split; [done|]. split; [by etrans|].
    intros p Hp. apply elem_of_cons in Hp as [->|Hp]; [by apply Hsub2|by apply Hin2].
Qed.

Lemma key_count_absent (k : string) (grid : list coord) :
  k ∉ coord_key <$> grid -> key_count k grid = 0%nat.
Proof.
  unfold key_count. induction grid as [|p grid IH]; intros Hk; [done|].
  rewrite fmap_cons, not_elem_of_cons in Hk. destruct Hk as [Hne Hk].
  rewrite filter_cons_False by congruence. by apply IH.
Qed.

Lemma key_count_once (k : string) (grid : list coord) :
  NoDup (coord_key <$> grid) -> k ∈ coord_key <$> grid -> key_count k grid = 1%nat.
Proof.
  unfold key_count. induction grid as [|p grid IH]; intros Hnd Hk.
  - by apply elem_of_nil in Hk.
  - rewrite fmap_cons in Hnd, Hk. apply NoDup_cons in Hnd as [Hp Hnd].
    destruct (decide (coord_key p = k)) as [Heq|Hne].
    + rewrite filter_cons_True by done. cbn. f_equal.
      apply key_count_absent. by rewrite <- Heq.
    + rewrite filter_cons_False by done. apply IH; [done|].
      apply elem_of_cons in Hk as [Hk|Hk]; [congruence|done].
Qed.

(** ** The two loops end *)

Lemma remaining_step (x hi : Q) :
  (x <= hi)%Q -> S (remaining (Qred (x + step)) hi) = remaining x hi.
Proof.
  intros Hle. unfold remaining.
  assert (((hi - Qred (x + step)) / step == (hi - x) / step + inject_Z (-1))%Q) as Heq.
  { rewrite Qred_correct. unfold step. change (inject_Z (-1)) with (-1)%Q. field. }
  rewrite (Qfloor_comp _ _ Heq), Qfloor_shift.
  assert (0 <= Qfloor ((hi - x) / step))%Z as Hpos.
  { change 0%Z with (Qfloor 0). apply Qfloor_resp_le.
    apply Qle_shift_div_l; [reflexivity|]. lra. }
  lia.
Qed.

Lemma lon_loop_ends :
  forall (fuel : nat) (lat lon : Q) (row : list coord) (seen : gset string),
    (remaining lon lonEnd < fuel)%nat -> is_Some (lon_loop fuel lat lon row seen).
Proof.
  induction fuel as [|fuel IH]; intros lat lon row seen Hfuel; [lia|].
  cbn [lon_loop]. destruct (Qle_bool lon lonEnd) eqn:Hle; [|by eexists].
  apply Qle_bool_iff in Hle. pose proof (remaining_step lon lonEnd Hle).
  cbn zeta. destruct (decide (coord_key (lat, lon) ∈ seen)); apply IH; lia.
Qed.

Lemma lat_loop_ends :
  forall (fuel inner : nat) (lat : Q) (grid : list coord) (seen : gset string),
    (remaining lat latEnd < fuel)%nat -> (remaining lonStart lonEnd < inner)%nat ->
    is_Some (lat_loop fuel inner lat grid seen).
Proof.
  induction fuel as [|fuel IH]; intros inner lat grid seen Hfuel Hinner; [lia|].
  cbn [lat_loop]. destruct (Qle_bool lat latEnd) eqn:Hle; [|by eexists].
  apply Qle_bool_iff in Hle. pose proof (remaining_step lat latEnd Hle).
  destruct (lon_loop_ends inner lat lonStart [] seen Hinner) as [[row seen1] ->].
  apply IH; [lia|done].
Qed.

Lemma primary_grid_built (fuel : nat) :
  (242 <= fuel)%nat ->
  exists grid seen, lat_loop fuel fuel latStart [] ∅ = Some (grid, seen) /\ grid_inv grid seen.
Proof.
  intros Hfuel.
  assert (remaining lonStart lonEnd = 241%nat) as Hlon by (vm_compute; reflexivity).
  assert (remaining latStart latEnd = 105%nat) as Hlat by (vm_compute; reflexivity).
  destruct (lat_loop_ends fuel fuel latStart [] ∅) as [[grid seen] Hrun]; [lia..|].
  exists grid, seen. split; [done|].
  apply (lat_loop_inv fuel fuel latStart [] ∅ grid seen); [|split|done].
  - apply (four_decimals_integer 24).
  - cbn. apply NoDup_nil_2.
  - intros k. cbn. rewrite elem_of_empty, elem_of_nil. done.
Qed.

(** C9. With fuel for the 241 longitudes of a row, the generator returns a
    grid in which no key occurs twice, and the key of each of the 14 extra
    points occurs exactly once, whether the point met a grid point of the
    nested loops or was appended. *)
Theorem extra_points_appear_once (fuel : nat) :
  (242 <= fuel)%nat ->
  exists grid,
    generateOptimizedGrid fuel = Some grid /\
    NoDup (coord_key <$> grid) /\
    length extraPoints = 14%nat /\
    forall point, point ∈ extraPoints -> key_count (coord_key point) grid = 1%nat.
Proof.
  intros Hfuel. destruct (primary_grid_built fuel Hfuel) as (grid & seen & Hrun & Hinv).
  unfold generateOptimizedGrid. rewrite Hrun.
  destruct (extras_inv extraPoints (grid, seen) Hinv) as ([Hnd Hseen] & _ & Hin).
  eexists. split; [done|]. split; [done|]. split; [done|].
  intros point Hp. apply key_count_once; [done|]. apply Hseen. by apply Hin.
Qed.

Lemma extra_points_appear_once_witness :
  exists grid,
    generateOptimizedGrid 242 = Some grid /\
    NoDup (coord_key <$> grid) /\
    length extraPoints = 14%nat /\
    forall point, point ∈ extraPoints -> key_count (coord_key point) grid = 1%nat.
Proof. apply (extra_points_appear_once 242). lia. Defined.

(* ===================================================================== *)
(** * More on the colour mapper *)
(* ===================================================================== *)

(** The factor the script computes, [(temp - temp1) / (temp2 - temp1)] with
    its three roundings, is between 0 and 1 inside a bracket whose width is
    a double. *)
Lemma factor_bounds (t t1 t2 : Q) :
  (t1 < t)%Q -> (t <= t2)%Q -> (binary64 (t2 - t1) == t2 - t1)%Q ->
  (0 <= binary64 (binary64 (t - t1) / binary64 (t2 - t1)) <= 1)%Q.
Proof.
  intros Hlo Hhi Hwidth.
  assert (0 <= binary64 (t - t1))%Q as Hx0
    by (rewrite <- binary64_0; apply binary64_mono; lra).
  assert (binary64 (t - t1) <= binary64 (t2 - t1))%Q as Hx1 by (apply binary64_mono; lra).
  assert (0 < binary64 (t2 - t1))%Q as Hd by lra.
  set (x := binary64 (t - t1)) in *. set (d := binary64 (t2 - t1)) in *.
  split.
  - rewrite <- binary64_0. apply binary64_mono. apply Qle_shift_div_l; [done|]. lra.
  - rewrite <- binary64_1. apply binary64_mono. apply Qle_shift_div_r; [done|]. lra.
Qed.

Lemma scale_between (d f : Q) :
  (0 <= d)%Q -> (0 <= f <= 1)%Q -> (0 <= d * f <= d)%Q.
Proof.
  intros Hd [Hf0 Hf1].
  assert (0 <= d * f)%Q by (apply Qmult_le_0_compat; lra).
  assert (0 <= d * (1 - f))%Q by (apply Qmult_le_0_compat; lra).
  assert (d * (1 - f) == d - d * f)%Q by ring.
  split; lra.
Qed.

(** A channel blended with a factor between 0 and 1, with the script's three
    roundings and its [Math.floor], stays between the two stops' values. *)
Lemma floor_blend_between (a b : Z) (f : Q) :
  (Z.abs a < 2 ^ 53)%Z -> (Z.abs b < 2 ^ 53)%Z -> (Z.abs (b - a) < 2 ^ 53)%Z ->
  (0 <= f <= 1)%Q ->
  between (inject_Z a) (inject_Z b)
          (Math_floor
             (binary64 (inject_Z a + binary64 (binary64 (inject_Z b - inject_Z a) * f)))) /\
  exists z,
    Math_floor (binary64 (inject_Z a + binary64 (binary64 (inject_Z b - inject_Z a) * f)))
    = inject_Z z.
Proof.
  intros Ha Hb Hd [Hf0 Hf1]. split; [|by eexists].
  pose proof (binary64_integer a Ha) as Ea. pose proof (binary64_integer b Hb) as Eb.
  assert (binary64 (inject_Z b - inject_Z a) == inject_Z b - inject_Z a)%Q as Ed.
  { assert (inject_Z b - inject_Z a == inject_Z (b - a))%Q as H
      by (unfold Z.sub; rewrite inject_Z_plus, inject_Z_opp; ring).
    rewrite (binary64_proper _ _ H), H. by apply binary64_integer. }
  assert (binary64 (binary64 (inject_Z b - inject_Z a))
          == binary64 (inject_Z b - inject_Z a))%Q as Edd.
  { rewrite (binary64_proper _ _ Ed). reflexivity. }
  remember (binary64 (inject_Z b - inject_Z a)) as d eqn:Hd'.
  remember (binary64 (d * f)) as p eqn:Hp.
  remember (binary64 (inject_Z a + p)) as v eqn:Hv.
  pose proof (Qfloor_le v) as Hfl. unfold between, Math_floor.
  destruct (Z.le_gt_cases a b) as [Hab|Hab].
  - left. assert (inject_Z a <= inject_Z b)%Q as Hq by (by rewrite <- Zle_Qle).
    assert (0 <= p <= d)%Q as [Hp0 Hp1].
    { subst p. split.
      - rewrite <- binary64_0. apply binary64_mono. apply scale_between; [lra|done].
      - apply Qle_trans with (binary64 d); [|lra]. apply binary64_mono.
        apply scale_between; [lra|done]. }
    assert (inject_Z a <= v /\ v <= inject_Z b)%Q as [Hlo Hhi].
    { subst v. split.
      - apply Qle_trans with (binary64 (inject_Z a)); [lra|]. apply binary64_mono. lra.
      - apply Qle_trans with (binary64 (inject_Z b)); [|lra]. apply binary64_mono. lra. }
    split; [|lra]. rewrite <- Zle_Qle. rewrite <- (Qfloor_Z a). by apply Qfloor_resp_le.
  - right. assert (inject_Z b < inject_Z a)%Q as Hq by (rewrite <- Zlt_Qlt; lia).
    assert (d <= p <= 0)%Q as [Hp0 Hp1].
    { subst p. split.
      - apply Qle_trans with (binary64 d); [lra|]. apply binary64_mono.
        destruct (scale_between (- d) f) as [_ H]; [lra|done|].
        assert ((- d) * f == - (d * f))%Q by ring. lra.
      - rewrite <- binary64_0. apply binary64_mono.
        destruct (scale_between (- d) f) as [H _]; [lra|done|].
        assert ((- d) * f == - (d * f))%Q by ring. lra. }
    assert (inject_Z b <= v /\ v <= inject_Z a)%Q as [Hlo Hhi].
    { subst v. split.
      - apply Qle_trans with (binary64 (inject_Z b)); [lra|]. apply binary64_mono. lra.
      - apply Qle_trans with (binary64 (inject_Z a)); [|lra]. apply binary64_mono. lra. }
    split; [|lra]. rewrite <- Zle_Qle. rewrite <- (Qfloor_Z b). by apply Qfloor_resp_le.
Qed.

Lemma interpolate_four (f a0 a1 a2 a3 b0 b1 b2 b3 : Q) :
  interpolate f [a0; a1; a2; a3] [b0; b1; b2; b3] =
  [ Math_floor (binary64 (a0 + binary64 (binary64 (b0 - a0) * f)));
    Math_floor (binary64 (a1 + binary64 (binary64 (b1 - a1) * f)));
    Math_floor (binary64 (a2 + binary64 (binary64 (b2 - a2) * f)));
    Qred (a3 + (b3 - a3) * f) ]%Q.
Proof. reflexivity. Qed.

Ltac decide_tests :=
  repeat match goal with
         | |- context [Qle_bool ?x ?y] =>
           first [ rewrite (Qle_bool_false x y) by lra
                 | rewrite (Qle_bool_true x y) by lra ]
         end.

Ltac blend_channel f Hf :=
  cbn [nth];
  lazymatch goal with
  | |- between (Qmake ?a 1) (Qmake ?b 1) _ /\ _ =>
    exact (floor_blend_between a b f eq_refl eq_refl eq_refl Hf)
  end.

Ltac bracket_case Hlo Hhi :=
  unfold temperature_color; cbn [head last colorStops];
  decide_tests; cbn [first_stop colorStops]; decide_tests;
  rewrite interpolate_four; cbn [channels];
  split; [reflexivity|]; split;
  [ cbn [nth]; rewrite Qred_correct; ring
  | let j := fresh "j" in let Hj := fresh "Hj" in
    intros j Hj;
    lazymatch goal with
    | |- context [binary64 (binary64 (?t - ?t1) / binary64 (?t2 - ?t1))] =>
      pose proof (factor_bounds t t1 t2 Hlo Hhi ltac:(vm_compute; reflexivity)) as Hf;
      destruct j as [|[|[|j]]];
      [ blend_channel (binary64 (binary64 (t - t1) / binary64 (t2 - t1))) Hf ..| lia ]
    end ].

(** The mapper's body on a number strictly inside a bracket, or at its upper
    stop. *)
Lemma bracket_of_number (i : nat) (t1 t2 t : Q) (c1 c2 : list Q) :
  colorStops !! i = Some (t1, c1) ->
  colorStops !! S i = Some (t2, c2) ->
  (t1 < t)%Q -> (t <= t2)%Q ->
  length (channels (temperature_color (Some t))) = 4%nat /\
  (nth 3 (channels (temperature_color (Some t))) 0 == 0.8)%Q /\
  forall j, (j < 3)%nat ->
    between (nth j c1 0%Q) (nth j c2 0%Q) (nth j (channels (temperature_color (Some t))) 0%Q) /\
    exists z, nth j (channels (temperature_color (Some t))) 0%Q = inject_Z z.
Proof.
  intros H1 H2 Hlo Hhi.
  do 13 (destruct i as [|i];
    [ cbn in H1, H2; injection H1 as <- <-; injection H2 as <- <-;
      bracket_case Hlo Hhi | ]).
  destruct i as [|i]; [|cbn in H2; destruct i; discriminate].
  cbn in H1, H2. injection H1 as <- <-. injection H2 as <- <-.
  destruct (Qle_bool 120 t) eqn:Htop.
  - unfold temperature_color. cbn [head last colorStops].
    rewrite (Qle_bool_false t (-20)) by lra. rewrite Htop. cbn [channels].
    split; [reflexivity|]. split; [reflexivity|].
    intros j Hj. destruct j as [|[|[|j]]]; [..|lia]; cbn [nth];
      (split; [unfold between; right; split; vm_compute; discriminate|by eexists]).
  - assert (t < 120)%Q as Hlt.
    { destruct (Qlt_le_dec t 120) as [|Hge]; [done|].
      apply Qle_bool_iff in Hge. congruence. }
    clear Htop. bracket_case Hlo Hhi.
Qed.

(** The mapper's body does not tell equal numbers apart. *)
Lemma first_stop_proper (x y : Q) (stops : list (Q * list Q)) :
  (x == y)%Q -> first_stop x stops = first_stop y stops.
Proof.
  intros Hxy. induction stops as [|[t1 c1] [|[t2 c2] rest] IH]; [done..|].
  change (first_stop x ((t1, c1) :: (t2, c2) :: rest)) with
    (if Qle_bool x t2
     then rgba_spaced (interpolate (binary64 (binary64 (x - t1) / binary64 (t2 - t1))) c1 c2)
     else first_stop x ((t2, c2) :: rest)).
  change (first_stop y ((t1, c1) :: (t2, c2) :: rest)) with
    (if Qle_bool y t2
     then rgba_spaced (interpolate (binary64 (binary64 (y - t1) / binary64 (t2 - t1))) c1 c2)
     else first_stop y ((t2, c2) :: rest)).
  assert (Qle_bool x t2 = Qle_bool y t2) as ->.
  { destruct (Qle_bool y t2) eqn:E.
    - apply Qle_bool_iff. apply Qle_bool_iff in E. lra.
    - destruct (Qle_bool x t2) eqn:E'; [|done].
      apply Qle_bool_iff in E'. rewrite Hxy in E'. apply Qle_bool_iff in E'. congruence. }
  assert (binary64 (x - t1) = binary64 (y - t1)) as ->
    by (apply binary64_proper; by rewrite Hxy).
  by rewrite IH.
Qed.

Lemma temperature_color_proper (x y : Q) :
  (x == y)%Q -> temperature_color (Some x) = temperature_color (Some y).
Proof.
  intros Hxy. unfold temperature_color. cbn [head last colorStops].
  assert (forall a, Qle_bool x a = Qle_bool y a) as Hle.
  { intros a. destruct (Qle_bool y a) eqn:E.
    - apply Qle_bool_iff. apply Qle_bool_iff in E. lra.
    - destruct (Qle_bool x a) eqn:E'; [|done].
      apply Qle_bool_iff in E'. rewrite Hxy in E'. apply Qle_bool_iff in E'. congruence. }
  assert (forall a, Qle_bool a x = Qle_bool a y) as Hge.
  { intros a. destruct (Qle_bool a y) eqn:E.
    - apply Qle_bool_iff. apply Qle_bool_iff in E. lra.
    - destruct (Qle_bool a x) eqn:E'; [|done].
      apply Qle_bool_iff in E'. rewrite Hxy in E'. apply Qle_bool_iff in E'. congruence. }
  rewrite Hle, Hge. by rewrite (first_stop_proper x y _ Hxy).
Qed.

(** On a double the conversion of the argument does nothing, and a number
    is converted once. *)
Lemma colorFor_of_double (t : Q) :
  (binary64 t == t)%Q -> colorFor t = temperature_color (Some t).
Proof. intros H. by apply temperature_color_proper. Qed.

Lemma colorFor_rounds_once (t : Q) : colorFor (binary64 t) = colorFor t.
Proof. apply temperature_color_proper, binary64_idempotent. Qed.

Lemma between_lower (a b v : Q) : (v == a)%Q -> between a b v.
Proof.
  intros Hv. unfold between.
  destruct (Qlt_le_dec b a); [right|left]; split; lra.
Qed.

(** The mapper's body at the lower stop of a bracket: that stop's colour. *)
Lemma lower_stop_of_number (i : nat) (t1 t2 : Q) (c1 c2 : list Q) :
  colorStops !! i = Some (t1, c1) ->
  colorStops !! S i = Some (t2, c2) ->
  length (channels (temperature_color (Some t1))) = 4%nat /\
  (nth 3 (channels (temperature_color (Some t1))) 0 == 0.8)%Q /\
  forall j, (j < 3)%nat ->
    between (nth j c1 0%Q) (nth j c2 0%Q)
            (nth j (channels (temperature_color (Some t1))) 0%Q) /\
    exists z, nth j (channels (temperature_color (Some t1))) 0%Q = inject_Z z.
Proof.
  intros H1 H2.
  do 14 (destruct i as [|i];
    [ cbn in H1, H2; injection H1 as <- <-; injection H2 as <- <-;
      split; [vm_compute; reflexivity|]; split; [vm_compute; reflexivity|];
      intros j Hj; destruct j as [|[|[|j]]]; [..|lia];
      (split; [apply between_lower; vm_compute; reflexivity
              | eexists; vm_compute; reflexivity])
    | ]).
  cbn in H2. destruct i; discriminate.
Qed.

(** The stops of the table are whole numbers. *)
Lemma stops_are_integers (i : nat) (t1 : Q) (c1 : list Q) :
  colorStops !! i = Some (t1, c1) ->
  exists z, t1 = inject_Z z /\ (Z.abs z < 2 ^ 53)%Z.
Proof.
  intros H1.
  do 15 (destruct i as [|i];
    [ cbn in H1; injection H1 as <- <-; eexists; split; [reflexivity|done] | ]).
  discriminate.
Qed.

Lemma bracket_channels (i : nat) (t1 t2 t : Q) (c1 c2 : list Q) :
  colorStops !! i = Some (t1, c1) ->
  colorStops !! S i = Some (t2, c2) ->
  (t1 < t)%Q -> (t <= t2)%Q ->
  length (channels (colorFor t)) = 4%nat /\
  (nth 3 (channels (colorFor t)) 0 == 0.8)%Q /\
  forall j, (j < 3)%nat ->
    between (nth j c1 0%Q) (nth j c2 0%Q) (nth j (channels (colorFor t)) 0%Q) /\
    exists z, nth j (channels (colorFor t)) 0%Q = inject_Z z.
Proof.
  intros H1 H2 Hlo Hhi. unfold colorFor.
  destruct (stops_are_integers _ _ _ H1) as (z1 & E1 & Hz1).
  destruct (stops_are_integers _ _ _ H2) as (z2 & E2 & Hz2).
  assert (t1 <= binary64 t)%Q as Hlo'
    by (rewrite E1; apply binary64_at_least; [done|rewrite <- E1; lra]).
  assert (binary64 t <= t2)%Q as Hhi'
    by (rewrite E2; apply binary64_at_most; [done|by rewrite <- E2]).
  destruct (Qlt_le_dec t1 (binary64 t)) as [Hin|Hat].
  - by apply (bracket_of_number i t1 t2).
  - assert (binary64 t == t1)%Q as Heq by lra.
    rewrite (temperature_color_proper _ _ Heq).
    by apply (lower_stop_of_number i t1 t2 c1 c2).
Qed.

(** X2. Between two neighbouring stops, at any temperature above the lower and
    up to the upper one, the colour has four channels; red, green and blue
    are whole numbers between the two stops' values, with every operation of
    the interpolation rounded as the script rounds it, and alpha is 0.8. *)
Theorem interpolation_stays_between (i : nat) (t1 t2 t : Q) (c1 c2 : list Q) :
  colorStops !! i = Some (t1, c1) ->
  colorStops !! S i = Some (t2, c2) ->
  (t1 < t)%Q -> (t <= t2)%Q ->
  length (channels (colorFor t)) = 4%nat /\
  (nth 3 (channels (colorFor t)) 0 == 0.8)%Q /\
  forall j, (j < 3)%nat ->
    between (nth j c1 0%Q) (nth j c2 0%Q) (nth j (channels (colorFor t)) 0%Q) /\
    exists z, nth j (channels (colorFor t)) 0%Q = inject_Z z.
Proof. apply bracket_channels. Qed.

(** At 0.7 the factor is the double below 0.07 and the product with 100 the
    double below 7: green is 6. *)
Lemma interpolation_stays_between_witness :
  Forall2 Qeq (channels (colorFor 0.7)) [0; 6; 255; 0.8]%Q /\
  length (channels (colorFor 0.7)) = 4%nat /\
  (nth 3 (channels (colorFor 0.7)) 0 == 0.8)%Q /\
  forall j, (j < 3)%nat ->
    between (nth j [0; 0; 255; 0.8]%Q 0%Q) (nth j [0; 100; 255; 0.8]%Q 0%Q)
            (nth j (channels (colorFor 0.7)) 0%Q) /\
    exists z, nth j (channels (colorFor 0.7)) 0%Q = inject_Z z.
Proof.
  split; [vm_compute; repeat constructor|].
  apply (interpolation_stays_between 2 0 10 0.7 [0; 0; 255; 0.8]%Q [0; 100; 255; 0.8]%Q);
    [reflexivity | reflexivity | vm_compute; reflexivity | vm_compute; discriminate].
Defined.

Ltac in_byte_range z Hb :=
  cbn [nth] in Hb; unfold between in Hb;
  let Hq0 := fresh "Hq0" in let Hq1 := fresh "Hq1" in
  assert (0 <= inject_Z z /\ inject_Z z <= 255)%Q as [Hq0 Hq1]
    by (destruct Hb as [[? ?]|[? ?]]; split; lra);
  split; rewrite Zle_Qle; [exact Hq0 | exact Hq1].

Ltac use_bracket i t Hlo Hhi :=
  destruct (bracket_of_number i _ _ t _ _ eq_refl eq_refl Hlo Hhi) as (Hlen & Ha & Hch);
  split; [exact Hlen|]; split; [exact Ha|];
  let j := fresh "j" in let Hj := fresh "Hj" in
  intros j Hj; destruct (Hch j Hj) as [Hb [z Hz]]; exists z; split; [exact Hz|];
  rewrite Hz in Hb; destruct j as [|[|[|j]]]; [in_byte_range z Hb ..| lia].

Lemma channels_in_range (t : Q) :
  length (channels (temperature_color (Some t))) = 4%nat /\
  (nth 3 (channels (temperature_color (Some t))) 0 == 0.8)%Q /\
  forall j, (j < 3)%nat ->
    exists z, nth j (channels (temperature_color (Some t))) 0%Q = inject_Z z /\
              (0 <= z <= 255)%Z.
Proof.
  destruct (Qlt_le_dec (-20) t) as [H0|Hlow].
  2:{ unfold temperature_color. cbn [head last colorStops].
      rewrite (Qle_bool_true t (-20)) by done. cbn [channels].
      split; [reflexivity|]. split; [reflexivity|].
      intros j Hj. destruct j as [|[|[|j]]]; [..|lia]; cbn [nth];
        eexists; (split; [reflexivity|lia]). }
  destruct (Qlt_le_dec (-10) t) as [H1|H1]; [|use_bracket 0%nat t H0 H1].
  destruct (Qlt_le_dec 0 t) as [H2|H2]; [|use_bracket 1%nat t H1 H2].
  destruct (Qlt_le_dec 10 t) as [H3|H3]; [|use_bracket 2%nat t H2 H3].
  destruct (Qlt_le_dec 20 t) as [H4|H4]; [|use_bracket 3%nat t H3 H4].
  destruct (Qlt_le_dec 30 t) as [H5|H5]; [|use_bracket 4%nat t H4 H5].
  destruct (Qlt_le_dec 40 t) as [H6|H6]; [|use_bracket 5%nat t H5 H6].
  destruct (Qlt_le_dec 50 t) as [H7|H7]; [|use_bracket 6%nat t H6 H7].
  destruct (Qlt_le_dec 60 t) as [H8|H8]; [|use_bracket 7%nat t H7 H8].
  destruct (Qlt_le_dec 70 t) as [H9|H9]; [|use_bracket 8%nat t H8 H9].
  destruct (Qlt_le_dec 80 t) as [H10|H10]; [|use_bracket 9%nat t H9 H10].
  destruct (Qlt_le_dec 90 t) as [H11|H11]; [|use_bracket 10%nat t H10 H11].
  destruct (Qlt_le_dec 100 t) as [H12|H12]; [|use_bracket 11%nat t H11 H12].
  destruct (Qlt_le_dec 110 t) as [H13|H13]; [|use_bracket 12%nat t H12 H13].
  destruct (Qlt_le_dec 120 t) as [H14|H14]; [|use_bracket 13%nat t H13 H14].
  unfold temperature_color. cbn [head last colorStops].
  rewrite (Qle_bool_false t (-20)) by lra. rewrite (Qle_bool_true 120 t) by lra.
  cbn [channels]. split; [reflexivity|]. split; [reflexivity|].
  intros j Hj. destruct j as [|[|[|j]]]; [..|lia]; cbn [nth];
    eexists; (split; [reflexivity|lia]).
Qed.

(** X1. Every numeric temperature is mapped to a colour of four channels: red,
    green and blue whole numbers from 0 to 255, alpha 0.8.  No number gets
    ['transparent']: the [return] after the interpolation loop is never
    reached. *)
Theorem colour_is_a_valid_rgba (t : Q) :
  colorFor t <> transparent /\
  length (channels (colorFor t)) = 4%nat /\
  (nth 3 (channels (colorFor t)) 0 == 0.8)%Q /\
  forall j, (j < 3)%nat ->
    exists z, nth j (channels (colorFor t)) 0%Q = inject_Z z /\ (0 <= z <= 255)%Z.
Proof.
  unfold colorFor. destruct (channels_in_range (binary64 t)) as (Hlen & Ha & Hch).
  split; [|done]. intros Heq. rewrite Heq in Hlen. discriminate.
Qed.

(** X3. At the temperature of each of the 15 stops the mapper returns that
    stop's own channels: the clamp does at the two ends, and in between the
    interpolation reaches the upper stop of a pair with factor 1. *)
Theorem every_stop_keeps_its_colour (t : Q) (c : list Q) :
  (t, c) ∈ colorStops -> Forall2 Qeq (channels (colorFor t)) c.
Proof.
  intros Hin. unfold colorStops in Hin.
  repeat (apply elem_of_cons in Hin as [Heq|Hin];
          [injection Heq as -> ->; vm_compute; repeat constructor|]).
  by apply elem_of_nil in Hin.
Qed.

Lemma every_stop_keeps_its_colour_witness :
  Forall2 Qeq (channels (colorFor 60)) [173; 255; 47; 0.8]%Q.
Proof.
  apply (every_stop_keeps_its_colour 60 [173; 255; 47; 0.8]%Q).
  do 8 apply list_elem_of_further. apply list_elem_of_here.
Defined.

(* ===================================================================== *)
(** * More on chunking *)
(* ===================================================================== *)

Lemma split_loop_lookup (coordinates : list coord) :
  forall (fuel i : nat) (acc : list (list coord)),
    (length coordinates - i < fuel)%nat ->
    exists cs,
      split_loop fuel i coordinates acc = Some (acc ++ cs) /\
      forall k,
        cs !! k =
        if (i + maxPointsPerRequest * k <? length coordinates)%nat
        then Some (slice coordinates (i + maxPointsPerRequest * k)
                         (i + maxPointsPerRequest * k + maxPointsPerRequest))
        else None.
Proof.
  induction fuel as [|fuel IH]; intros i acc Hfuel; [lia|].
  cbn [split_loop]. destruct (i <? length coordinates)%nat eqn:Hi.
  - apply Nat.ltb_lt in Hi.
    destruct (IH (i + maxPointsPerRequest)%nat
                 (acc ++ [slice coordinates i (i + maxPointsPerRequest)]))
      as (cs & Heq & Hlook).
    { unfold maxPointsPerRequest. lia. }
    exists (slice coordinates i (i + maxPointsPerRequest) :: cs).
    split; [by rewrite Heq, <- app_assoc|].
    intros [|k].
    + rewrite Nat.mul_0_r, Nat.add_0_r, (proj2 (Nat.ltb_lt _ _) Hi). reflexivity.
    + transitivity (cs !! k); [reflexivity|]. rewrite (Hlook k).
      by replace (i + maxPointsPerRequest + maxPointsPerRequest * k)%nat
        with (i + maxPointsPerRequest * S k)%nat by lia.
  - apply Nat.ltb_ge in Hi. exists []. rewrite app_nil_r. split; [done|].
    intros k. rewrite lookup_nil.
    destruct (i + maxPointsPerRequest * k <? length coordinates)%nat eqn:Hk; [|done].
    apply Nat.ltb_lt in Hk. lia.
Qed.

(** X4. The [k]-th chunk is [coordinates.slice(100 k, 100 k + 100)], there is
    one for each [k] with [100 k < N], and it holds [min 100 (N - 100 k)]
    coordinates: every chunk before the last is full. *)
Theorem chunks_are_consecutive_slices (fuel : nat) (coordinates : list coord)
    (initial : list (list coord)) :
  split_loop fuel 0 coordinates [] = Some initial ->
  forall k,
    initial !! k =
    (if (100 * k <? length coordinates)%nat
     then Some (take 100 (drop (100 * k) coordinates)) else None) /\
    forall c, initial !! k = Some c ->
      length c = (100 `min` (length coordinates - 100 * k))%nat.
Proof.
  intros Hsplit k.
  destruct (split_loop_lookup coordinates (S (length coordinates)) 0 [])
    as (cs & Heq & Hlook); [lia|].
  cbn [app] in Heq.
  assert (initial = cs) as -> by (eapply split_loop_agree; eassumption).
  specialize (Hlook k). unfold maxPointsPerRequest, slice in Hlook. cbn [Nat.add] in Hlook.
  replace (100 * k + 100 - 100 * k)%nat with 100%nat in Hlook by lia.
  split; [exact Hlook|].
  intros c Hc. rewrite Hlook in Hc.
  destruct (100 * k <? length coordinates)%nat; [|done].
  injection Hc as <-. rewrite length_take, length_drop. done.
Qed.

Lemma chunks_are_consecutive_slices_witness :
  [[(24, -126)%Q; (24, -125.75)%Q]] !! 0%nat =
    Some (take 100 (drop (100 * 0) [(24, -126)%Q; (24, -125.75)%Q])) /\
  forall c, [[(24, -126)%Q; (24, -125.75)%Q]] !! 0%nat = Some c ->
    length c = (100 `min` (2 - 100 * 0))%nat.
Proof.
  apply (chunks_are_consecutive_slices 3 [(24, -126)%Q; (24, -125.75)%Q]
           [[(24, -126)%Q; (24, -125.75)%Q]] eq_refl 0%nat).
Defined.

(* ===================================================================== *)
(** * Where the records come from *)
(* ===================================================================== *)

Lemma usable_series_truthy (point series : json) :
  usable_series point series -> truthy (Some series) = true.
Proof. by intros (hourly & _ & _ & _ & H). Qed.

Lemma loop_body_records (w : world) (total : nat) (s : loop_state) (chunk : list coord) :
  exists new,
    weatherData (loop_body w total s chunk) = weatherData s ++ new /\
    forall r, r ∈ new ->
      truthy (Some (temperatures r)) = true /\
      exists status points i,
        fetch w (position s) (request_url chunk) = Response status (Some (JArr points)) /\
        (i < length points)%nat /\ coords r = chunk !! i.
Proof.
  assert (forall l : list WeatherRecord, exists new : list WeatherRecord,
            l = l ++ new /\
            forall r, r ∈ new ->
              truthy (Some (temperatures r)) = true /\
              exists status points i,
                fetch w (position s) (request_url chunk) =
                  Response status (Some (JArr points)) /\
                (i < length points)%nat /\ coords r = chunk !! i) as Hnone.
  { intros l. exists []. rewrite app_nil_r. split; [done|].
    intros r Hr. by apply elem_of_nil in Hr. }
  unfold loop_body, catch_block.
  destruct (fetch w (position s) (request_url chunk)) as [|status body] eqn:Hf;
    [apply Hnone|].
  destruct (response_ok status); [|apply Hnone].
  destruct body as [data|]; [|apply Hnone]. simpl_state.
  assert (exists new,
            (process_response chunk data (weatherData s)).1 = weatherData s ++ new /\
            forall r, r ∈ new ->
              truthy (Some (temperatures r)) = true /\
              exists status' points i,
                Response status (Some data) = Response status' (Some (JArr points)) /\
                (i < length points)%nat /\ coords r = chunk !! i) as (new & Heq & Hnew).
  { destruct data as [| | | |points|]; try (cbn; apply Hnone).
    destruct (records_follow chunk points (weatherData s)) as (new & Heq & Honly).
    exists new. split; [done|]. intros r Hr.
    destruct (Honly r Hr) as (i & point & Hi & Hu & Hc).
    split; [by eapply usable_series_truthy|].
    exists status, points, i. split; [done|]. split; [|done].
    by eapply lookup_lt_Some. }
  destruct (process_response chunk data (weatherData s)) as [wd raised].
  cbn [fst] in Heq. exists new.
  destruct raised; [|destruct (updateProgress_returns w (position s))]; simpl_state; done.
Qed.

Lemma traced_after_passes (w : world) (total : nat) (initial : list (list coord))
    (stored : list WeatherRecord) :
  forall (n : nat) (s s' : loop_state),
    (forall c, c ∈ chunks s -> c ∈ initial) ->
    (exists new, weatherData s = stored ++ new /\
                 forall r, r ∈ new -> traced_record w initial r) ->
    after_passes n w total s = Some s' ->
    exists new, weatherData s' = stored ++ new /\
                forall r, r ∈ new -> traced_record w initial r.
Proof.
  induction n as [|n IH]; intros s s' Hq Hdata H; cbn in H.
  - by injection H as <-.
  - destruct (chunks s !! position s) as [chunk|] eqn:Hlook; [|done].
    assert (chunk ∈ initial) as Hin by (eapply Hq, list_elem_of_lookup_2, Hlook).
    apply (IH _ _) in H; [done| |].
    + intros c Hc.
      destruct (pass_queue _ _ _ _ _ (loop_body_pass w total s chunk)) as [_ [Heq|Heq]];
        rewrite Heq in Hc; [by apply Hq|].
      apply elem_of_app in Hc as [Hc|Hc]; [by apply Hq|].
      apply list_elem_of_singleton in Hc. by subst c.
    + destruct Hdata as (old & Hold & Htraced).
      destruct (loop_body_records w total s chunk) as (new & Hnew & Hrec).
      exists (old ++ new). split; [by rewrite Hnew, Hold, app_assoc|].
      intros r Hr. apply elem_of_app in Hr as [Hr|Hr]; [by apply Htraced|].
      destruct (Hrec r Hr) as (Ht & status & points & i & Hf & Hi & Hc).
      split; [done|]. by exists (position s), chunk, status, points, i.
Qed.

Lemma fetched_records_traced (fuel : nat) (w : world) (stored : list WeatherRecord)
    (coordinates : list coord) data evs :
  fetchData fuel w stored coordinates = Some (data, evs) ->
  exists initial new,
    split_loop fuel 0 coordinates [] = Some initial /\
    data = stored ++ new /\ forall r, r ∈ new -> traced_record w initial r.
Proof.
  unfold fetchData. intros H.
  destruct (split_loop fuel 0 coordinates []) as [initial|] eqn:Hsplit; [|done].
  destruct (run_loop fuel w (length initial) (mkState initial 0 stored 0 []))
    as [s|] eqn:Hrun; [|done].
  injection H as <- <-.
  destruct (run_loop_passes _ _ _ _ _ Hrun) as (n & _ & Hafter & _).
  destruct (traced_after_passes w (length initial) initial stored n
              (mkState initial 0 stored 0 []) s) as (new & Hnew & Htraced).
  - by simpl_state.
  - exists []. simpl_state. rewrite app_nil_r. split; [done|].
    intros r Hr. by apply elem_of_nil in Hr.
  - exact Hafter.
  - by exists initial, new.
Qed.

Lemma elem_of_concat_of {A} (x : A) (l : list A) (ls : list (list A)) :
  x ∈ l -> l ∈ ls -> x ∈ concat ls.
Proof.
  intros Hx Hl. induction ls as [|l' ls IH]; [by apply elem_of_nil in Hl|].
  cbn. apply elem_of_app. apply elem_of_cons in Hl as [->|Hl]; [by left|].
  right. by apply IH.
Qed.

Lemma split_loop_concat (fuel : nat) (coordinates : list coord)
    (initial : list (list coord)) :
  split_loop fuel 0 coordinates [] = Some initial -> concat initial = coordinates.
Proof.
  intros Hsplit. destruct (initial_chunks coordinates) as (initial' & Hall & _ & _ & Hcat).
  assert (initial = initial') as ->; [|done].
  eapply split_loop_agree; [exact Hsplit|]. apply (Hall (S (length coordinates))). lia.
Qed.

(** X5. When [fetchData] returns, the array it returns starts with the records
    the manager already held; every record it added carries a truthy series,
    and its [coords], when defined, is one of the coordinates passed in. *)
Theorem records_come_from_the_request (fuel : nat) (w : world)
    (stored : list WeatherRecord) (coordinates : list coord) data evs :
  fetchData fuel w stored coordinates = Some (data, evs) ->
  exists new,
    data = stored ++ new /\
    forall r, r ∈ new ->
      truthy (Some (temperatures r)) = true /\
      forall c, coords r = Some c -> c ∈ coordinates.
Proof.
  intros H. destruct (fetched_records_traced _ _ _ _ _ _ H)
    as (initial & new & Hsplit & Hdata & Htraced).
  exists new. split; [done|]. intros r Hr.
  destruct (Htraced r Hr) as (Ht & n & chunk & status & points & i & Hin & _ & _ & Hc).
  split; [done|]. intros c Hcoords.
  rewrite <- (split_loop_concat _ _ _ Hsplit).
  apply (elem_of_concat_of _ chunk); [|done].
  rewrite Hcoords in Hc. symmetry in Hc. by eapply list_elem_of_lookup_2.
Qed.

Lemma records_come_from_the_request_witness :
  exists new,
    [mkRecord (Some (24, -126)%Q) (JArr [JNum 71.5])] = [] ++ new /\
    forall r, r ∈ new ->
      truthy (Some (temperatures r)) = true /\
      forall c, coords r = Some c -> c ∈ [(24, -126)%Q].
Proof.
  apply (records_come_from_the_request 2 one_reading [] [(24, -126)%Q]
           [mkRecord (Some (24, -126)%Q) (JArr [JNum 71.5])]
           [Requested (request_url [(24, -126)%Q]); Progress 100; Waited 100]).
  vm_compute. reflexivity.
Defined.

(* ===================================================================== *)
(** * More on the redraw *)
(* ===================================================================== *)

Lemma draw_points_raised parse m (hour : Z) (w h : Q) (data : list WeatherRecord) :
  (draw_points parse m hour w h data).2 = false <-> Forall drawable data.
Proof.
  induction data as [|p rest IH]; cbn; [done|].
  destruct (get_index (temperatures p) hour) as [u|v] eqn:Hidx.
  - apply get_index_inl in Hidx. cbn. split; [done|].
    intros H. apply Forall_cons in H as [[_ Hnull] _]. done.
  - assert (temperatures p <> JNull) as Hnn.
    { intros Heq. rewrite Heq in Hidx. discriminate. }
    destruct (coords p) as [[lat lon]|] eqn:Hc.
    + destruct (draw_points parse m hour w h rest) as [calls raised]. cbn in *.
      rewrite IH. split.
      * intros H. apply Forall_cons. split; [|done]. split; [|done]. by rewrite Hc.
      * intros H. by apply Forall_cons in H as [_ H].
    + cbn. split; [done|]. intros H. apply Forall_cons in H as [[Hcn _] _]. done.
Qed.



(* ===================================================================== *)
(** * From the fetch to the first redraw *)
(* ===================================================================== *)





(** X8. An answer longer than its chunk, with a usable element beyond the
    chunk's length, leaves a record whose [coords] is [undefined]; a redraw
    of the accumulator then raises, at any hour. *)
Theorem overlong_answer_breaks_the_redraw (chunk : list coord) (points : list json)
    (stored : list WeatherRecord) (i : nat) (point series : json)
    parse (m : LeafletMap) (hour : Z) :
  points !! i = Some point -> usable_series point series ->
  (length chunk <= i)%nat ->
  (process_response chunk (JArr points) stored).2 = false ->
  mkRecord None series ∈ (process_response chunk (JArr points) stored).1 /\
  (render parse m (process_response chunk (JArr points) stored).1 hour).2 = true.
Proof.
  intros Hi Hu Hlen Hok. cbn [process_response] in *.
  destruct (forEach_points_spec chunk points 0 stored) as (new & Heq & _ & Hall).
  pose proof (Hall Hok i point series Hi Hu) as Hin. cbn [Nat.add] in Hin.
  rewrite (lookup_ge_None_2 chunk i Hlen) in Hin.
  assert (mkRecord None series ∈ (forEach_points chunk 0 points stored).1) as Hmem.
  { rewrite Heq. apply elem_of_app. by right. }
  split; [exact Hmem|].
  unfold render, draw. set (rw := Qabs _). set (rh := Qabs _).
  pose proof (draw_points_raised parse m hour rw rh
                (forEach_points chunk 0 points stored).1) as Hraised.
  destruct (draw_points parse m hour rw rh (forEach_points chunk 0 points stored).1)
    as [calls raised]. cbn [snd] in *.
  destruct raised; [done|]. exfalso.
  pose proof (proj1 Hraised eq_refl) as Hdraw.
  rewrite Forall_forall in Hdraw. by destruct (Hdraw _ Hmem) as [Hc _].
Qed.

Lemma overlong_answer_breaks_the_redraw_witness :
  mkRecord None (JArr [JNum 71.5]) ∈
    (process_response [(24, -126)%Q]
       (JArr [JNum 3; JObj [("hourly", JObj [("temperature_2m", JArr [JNum 71.5])])]])
       []).1 /\
  (render (fun _ => None) flat_map
     (process_response [(24, -126)%Q]
        (JArr [JNum 3; JObj [("hourly", JObj [("temperature_2m", JArr [JNum 71.5])])]])
        []).1 0).2
  = true.
Proof.
  apply (overlong_answer_breaks_the_redraw [(24, -126)%Q]
           [JNum 3; JObj [("hourly", JObj [("temperature_2m", JArr [JNum 71.5])])]] [] 1
           (JObj [("hourly", JObj [("temperature_2m", JArr [JNum 71.5])])])
           (JArr [JNum 71.5]) (fun _ => None) flat_map 0).
  - reflexivity.
  - exists (JObj [("temperature_2m", JArr [JNum 71.5])]). repeat split.
  - cbn. lia.
  - reflexivity.
Defined.

(* ===================================================================== *)
(** * A [null] element in an answer *)
(* ===================================================================== *)

Lemma forEach_points_app (chunk : list coord) (good rest : list json) :
  forall (index : nat) (stored : list WeatherRecord),
    (forEach_points chunk index good stored).2 = false ->
    forEach_points chunk index (good ++ rest) stored =
    forEach_points chunk (index + length good) rest
                   (forEach_points chunk index good stored).1.
Proof.
  induction good as [|point good IH]; intros index stored Hok;
    cbn -[truthy hourly_series] in *.
  - by rewrite Nat.add_0_r.
  - destruct (hourly_series point) as [[]|[series|]]; [done| |].
    + destruct (truthy (Some series)); rewrite IH by done; f_equal; lia.
    + rewrite IH by done. f_equal. lia.
Qed.

(** X9. When an element of an answer is [null], reading its [hourly] raises:
    the records of the elements before it stay in the accumulator, the chunk
    goes back to the end of the queue, and neither the counter nor the
    progress moves.  The retry will store those records once more. *)
Theorem null_element_requeues_after_storing (w : world) (total : nat) (s : loop_state)
    (chunk : list coord) (status : Z) (good rest : list json) :
  fetch w (position s) (request_url chunk)
    = Response status (Some (JArr (good ++ JNull :: rest))) ->
  response_ok status = true ->
  (process_response chunk (JArr good) (weatherData s)).2 = false ->
  loop_body w total s chunk =
  mkState (chunks s ++ [chunk]) (S (position s))
          (process_response chunk (JArr good) (weatherData s)).1
          (processedChunks s)
          ((events s ++ [Requested (request_url chunk)]) ++ [ErrorLogged]).
Proof.
  intros Hf Hok Hgood. unfold loop_body, catch_block. rewrite Hf, Hok. simpl_state.
  cbn [process_response] in *.
  rewrite (forEach_points_app chunk good (JNull :: rest) 0 (weatherData s) Hgood).
  cbn [forEach_points hourly_series get_member]. by simpl_state.
Qed.

Lemma null_element_requeues_after_storing_witness :
  loop_body null_then_clean 1 (mkState [[(24, -126)%Q]] 0 [] 0 []) [(24, -126)%Q] =
  mkState ([[(24, -126)%Q]] ++ [[(24, -126)%Q]]) 1
          (process_response [(24, -126)%Q]
             (JArr [JObj [("hourly", JObj [("temperature_2m", JArr [JNum 71.5])])]]) []).1
          0
          (([] ++ [Requested (request_url [(24, -126)%Q])]) ++ [ErrorLogged]) /\
  fetchData 3 null_then_clean [] [(24, -126)%Q] =
  Some ([mkRecord (Some (24, -126)%Q) (JArr [JNum 71.5]);
         mkRecord (Some (24, -126)%Q) (JArr [JNum 71.5])],
        [Requested (request_url [(24, -126)%Q]); ErrorLogged;
         Requested (request_url [(24, -126)%Q]); Progress 100; Waited 100]).
Proof.
  split.
  - apply (null_element_requeues_after_storing null_then_clean 1
             (mkState [[(24, -126)%Q]] 0 [] 0 []) [(24, -126)%Q] 200
             [JObj [("hourly", JObj [("temperature_2m", JArr [JNum 71.5])])]] []);
      reflexivity.
  - vm_compute. reflexivity.
Defined.

(* ===================================================================== *)
(** * When the failures stop *)
(* ===================================================================== *)

Lemma run_loop_ends_after (w : world) (total N0 : nat) :
  (forall n c, (N0 <= n)%nat -> pass_raises w n c = false) ->
  forall (fuel : nat) (s : loop_state),
    ((length (chunks s) - position s) + (N0 - position s) < fuel)%nat ->
    (errors (events s) <= position s)%nat -> (errors (events s) <= N0)%nat ->
    exists s', run_loop fuel w total s = Some s' /\ (errors (events s') <= N0)%nat.
Proof.
  intros Hcalm. induction fuel as [|fuel IH]; intros s Hfuel Hpos HN; [lia|].
  cbn [run_loop]. destruct (chunks s !! position s) as [chunk|] eqn:Hlook; [|by exists s].
  pose proof (lookup_lt_Some _ _ _ Hlook) as Hlen.
  destruct (loop_body_pass w total s chunk) as [wd Hno|wd Hr _|wd Hr _ _];
    apply IH; simpl_state; rewrite ?length_app; cbn [length];
    rewrite ?errors_app; cbn [errors omap length];
    try (destruct (Nat.le_gt_cases N0 (position s)) as [Hge|Hlt];
         [rewrite (Hcalm _ _ Hge) in Hr; discriminate|]);
    unfold errors in *; cbn; lia.
Qed.

(** X10. If from some pass on no pass ends in the [catch] block, [fetchData]
    returns, given fuel beyond the number of coordinates plus the passes
    before that one; it has then logged at most that many errors and made at
    most that many requests beyond one per chunk. *)
Theorem fetchData_returns_once_failures_stop (w : world) (stored : list WeatherRecord)
    (coordinates : list coord) (N0 fuel : nat) :
  (forall n c, (N0 <= n)%nat -> pass_raises w n c = false) ->
  (length coordinates + N0 < fuel)%nat ->
  exists data evs,
    fetchData fuel w stored coordinates = Some (data, evs) /\
    (errors evs <= N0)%nat /\
    (length (requests evs) <= (length coordinates + 99) / 100 + N0)%nat.
Proof.
  intros Hcalm Hfuel.
  destruct (initial_chunks coordinates) as (initial & Hsplit & Hlen & _ & _).
  unfold fetchData. rewrite (Hsplit fuel) by lia.
  destruct (run_loop_ends_after w (length initial) N0 Hcalm fuel
              (mkState initial 0 stored 0 [])) as (s & Hrun & Herr).
  - simpl_state. pose proof (chunk_count_le (length coordinates)). lia.
  - cbn. lia.
  - cbn. lia.
  - rewrite Hrun. exists (weatherData s), (events s). split; [done|]. split; [done|].
    destruct (run_loop_invariant _ _ _ _ _ (initial_invariant initial stored) Hrun)
      as [[Hq Hp Hb Hr Hv Hw] Hend].
    lia.
Qed.

Lemma fetchData_returns_once_failures_stop_witness :
  exists data evs,
    fetchData 3 fails_first [] [(24, -126)%Q] = Some (data, evs) /\
    (errors evs <= 1)%nat /\
    (length (requests evs) <= (1 + 99) / 100 + 1)%nat.
Proof.
  apply (fetchData_returns_once_failures_stop fails_first [] [(24, -126)%Q] 1 3).
  - intros [|n] c Hn; [lia|reflexivity].
  - cbn. lia.
Defined.

(* ===================================================================== *)
(** * The hover handler *)
(* ===================================================================== *)

Lemma near_spec (lat lng : Q) (c : coord) :
  near lat lng c = true <->
  (Qabs (fst c - lat) < 0.25)%Q /\ (Qabs (snd c - lng) < 0.25)%Q.
Proof.
  unfold near, Qlt_bool. rewrite andb_true_iff, !negb_true_iff.
  assert (forall x y : Q, Qle_bool y x = false <-> (x < y)%Q) as H.
  { intros x y. split.
    - intros Hf. destruct (Qlt_le_dec x y) as [|Hle]; [done|].
      apply Qle_bool_iff in Hle. congruence.
    - apply Qle_bool_false. }
  by rewrite !H.
Qed.

(** X11. The record the hover handler shows is the first one, in array order,
    strictly within a quarter degree of the pointer in latitude and in
    longitude; no record before it is; and when every record has [coords],
    the handler finds none exactly when none is that near. *)
Theorem hover_picks_the_first_near_record (lat lng : Q) (data : list WeatherRecord) :
  (forall p, find_near lat lng data = inr (Some p) ->
     exists i c,
       data !! i = Some p /\ coords p = Some c /\
       (Qabs (fst c - lat) < 0.25)%Q /\ (Qabs (snd c - lng) < 0.25)%Q /\
       forall k q, (k < i)%nat -> data !! k = Some q ->
         exists d, coords q = Some d /\ near lat lng d = false) /\
  (Forall (fun p => coords p <> None) data ->
     (find_near lat lng data = inr None <->
      forall q d, q ∈ data -> coords q = Some d -> near lat lng d = false) /\
     find_near lat lng data <> inl tt).
Proof.
  induction data as [|q rest [IHfound IHnone]]; cbn [find_near].
  - split; [done|]. intros _. split; [|done]. split; [|done].
    intros _ q d Hq. by apply elem_of_nil in Hq.
  - destruct (coords q) as [c|] eqn:Hc.
    + destruct (near lat lng c) eqn:Hnear.
      * split.
        -- intros p Hp. injection Hp as <-. exists 0%nat, c.
           apply near_spec in Hnear as [H1 H2]. repeat split; try done.
           intros k q' Hk. lia.
        -- intros Hall. split; [|done]. split; [done|].
           intros H. specialize (H q c (list_elem_of_here _ _) Hc). congruence.
      * split.
        -- intros p Hp. destruct (IHfound p Hp) as (i & c' & Hi & Hc' & H1 & H2 & Hbefore).
           exists (S i), c'. repeat split; try done.
           intros [|k] q' Hk Hq'; cbn in Hq'.
           ++ injection Hq' as <-. by exists c.
           ++ apply (Hbefore k q'); [lia|done].
        -- intros Hall. apply Forall_cons in Hall as [_ Hall].
           destruct (IHnone Hall) as [Hiff Hno]. split; [|done].
           rewrite Hiff. split.
           ++ intros H q' d Hq' Hd. apply elem_of_cons in Hq' as [->|Hq'].
              ** congruence.
              ** by apply (H q' d).
           ++ intros H q' d Hq'. apply H. by right.
    + split; [done|]. intros Hall. apply Forall_cons in Hall as [Hq _]. done.
Qed.

(* ===================================================================== *)
(** * What the two loops cover *)
(* ===================================================================== *)

Lemma coord_key_proper (a a' b b' : Q) :
  (a == a')%Q -> (b == b')%Q -> coord_key (a, b) = coord_key (a', b').
Proof.
  intros Ha Hb. unfold coord_key. cbn [fst snd].
  by rewrite (toFixed4_proper _ _ Ha), (toFixed4_proper _ _ Hb).
Qed.

Lemma steps_nonneg (n : nat) : (0 <= inject_Z (Z.of_nat n) * step)%Q.
Proof.
  apply Qmult_le_0_compat; [|by vm_compute].
  change 0%Q with (inject_Z 0). rewrite <- Zle_Qle. lia.
Qed.

Lemma steps_succ (x : Q) (n : nat) :
  (Qred (x + step) + inject_Z (Z.of_nat n) * step
   == x + inject_Z (Z.of_nat (S n)) * step)%Q.
Proof.
  rewrite Qred_correct, Nat2Z.inj_succ. unfold Z.succ. rewrite inject_Z_plus.
  change (inject_Z 1) with 1%Q. ring.
Qed.

Lemma lon_loop_covers :
  forall (fuel : nat) (lat lon : Q) (row : list coord) (seen : gset string) row' seen',
    lon_loop fuel lat lon row seen = Some (row', seen') ->
    seen ⊆ seen' /\
    forall n : nat,
      (lon + inject_Z (Z.of_nat n) * step <= lonEnd)%Q ->
      coord_key (lat, (lon + inject_Z (Z.of_nat n) * step)%Q) ∈ seen'.
Proof.
  induction fuel as [|fuel IH]; intros lat lon row seen row' seen' H; [done|].
  cbn [lon_loop] in H. destruct (Qle_bool lon lonEnd) eqn:Hle.
  - cbn zeta in H.
    assert (exists row1 seen1,
              lon_loop fuel lat (Qred (lon + step)) row1 seen1 = Some (row', seen') /\
              seen ⊆ seen1 /\ coord_key (lat, lon) ∈ seen1) as (row1 & seen1 & Hrun & Hsub & Hin).
    { destruct (decide (coord_key (lat, lon) ∈ seen)) as [Hd|Hd].
      - by exists row, seen.
      - eexists _, _. split; [exact H|]. split.
        + apply union_subseteq_r.
        + apply elem_of_union_l. by apply elem_of_singleton. }
    destruct (IH _ _ _ _ _ _ Hrun) as [Hsub' Hcover]. split; [by etrans|].
    intros [|n] Hn.
    + apply Hsub'. erewrite coord_key_proper; [exact Hin|reflexivity|].
      cbn. ring.
    + erewrite coord_key_proper; [apply (Hcover n)|reflexivity|].
      * by rewrite steps_succ.
      * by rewrite steps_succ.
  - injection H as <- <-. split; [done|].
    intros n Hn. exfalso. pose proof (steps_nonneg n).
    assert (lon <= lonEnd)%Q as Hcontra by lra.
    apply Qle_bool_iff in Hcontra. congruence.
Qed.

Lemma lat_loop_covers :
  forall (fuel inner : nat) (lat : Q) (grid : list coord) (seen : gset string) grid' seen',
    lat_loop fuel inner lat grid seen = Some (grid', seen') ->
    seen ⊆ seen' /\
    forall i j : nat,
      (lat + inject_Z (Z.of_nat i) * step <= latEnd)%Q ->
      (lonStart + inject_Z (Z.of_nat j) * step <= lonEnd)%Q ->
      coord_key ((lat + inject_Z (Z.of_nat i) * step)%Q,
                 (lonStart + inject_Z (Z.of_nat j) * step)%Q) ∈ seen'.
Proof.
  induction fuel as [|fuel IH]; intros inner lat grid seen grid' seen' H; [done|].
  cbn [lat_loop] in H. destruct (Qle_bool lat latEnd) eqn:Hle.
  - destruct (lon_loop inner lat lonStart [] seen) as [[row seen1]|] eqn:Hrow; [|done].
    destruct (lon_loop_covers _ _ _ _ _ _ _ Hrow) as [Hsub1 Hrowcover].
    destruct (IH _ _ _ _ _ _ H) as [Hsub' Hcover]. split; [by etrans|].
    intros [|i] j Hi Hj.
    + apply Hsub'. erewrite coord_key_proper; [apply (Hrowcover j Hj)| |reflexivity].
      cbn. ring.
    + erewrite coord_key_proper; [apply (Hcover i j)| |reflexivity].
      * by rewrite steps_succ.
      * done.
      * by rewrite steps_succ.
  - injection H as <- <-. split; [done|].
    intros i j Hi Hj. exfalso. pose proof (steps_nonneg i).
    assert (lat <= latEnd)%Q as Hcontra by lra.
    apply Qle_bool_iff in Hcontra. congruence.
Qed.

Lemma extra_points_on_the_lattice (e : coord) :
  e ∈ extraPoints ->
  exists i j : nat,
    (e.1 == latStart + inject_Z (Z.of_nat i) * step)%Q /\
    (e.2 == lonStart + inject_Z (Z.of_nat j) * step)%Q /\
    (latStart + inject_Z (Z.of_nat i) * step <= latEnd)%Q /\
    (lonStart + inject_Z (Z.of_nat j) * step <= lonEnd)%Q.
Proof.
  intros He. unfold extraPoints in He.
  repeat (apply elem_of_cons in He as [->|He];
          [ lazymatch goal with
            | |- context [((?a, ?b).1 == _)%Q] =>
              exists (Z.to_nat (Qfloor ((a - latStart) / step))),
                     (Z.to_nat (Qfloor ((b - lonStart) / step)))
            end
          | ]);
    try (by apply elem_of_nil in He).
  all: cbn [fst snd]; repeat split; vm_compute; first [reflexivity | discriminate].
Qed.

Lemma extras_already_seen (points : list coord) (st : list coord * gset string) :
  (forall e, e ∈ points -> coord_key e ∈ st.2) -> fold_left add_extra points st = st.
Proof.
  induction points as [|e points IH]; intros Hall; cbn [fold_left]; [done|].
  assert (add_extra st e = st) as ->.
  { unfold add_extra. cbn zeta. destruct (decide (coord_key e ∈ st.2)) as [|Hn]; [done|].
    exfalso. apply Hn, Hall. by left. }
  apply IH. intros e' He'. apply Hall. by right.
Qed.

Lemma extras_change_nothing (fuel : nat) :
  (242 <= fuel)%nat ->
  exists grid seen,
    lat_loop fuel fuel latStart [] ∅ = Some (grid, seen) /\
    (forall e, e ∈ extraPoints -> coord_key e ∈ seen) /\
    generateOptimizedGrid fuel = Some grid.
Proof.
  intros Hfuel. destruct (primary_grid_built fuel Hfuel) as (grid & seen & Hrun & _).
  exists grid, seen. split; [done|].
  destruct (lat_loop_covers _ _ _ _ _ _ _ Hrun) as [_ Hcover].
  assert (forall e, e ∈ extraPoints -> coord_key e ∈ seen) as Hseen.
  { intros [a b] He.
    destruct (extra_points_on_the_lattice _ He) as (i & j & Ha & Hb & Hi & Hj).
    cbn [fst snd] in Ha, Hb. rewrite (coord_key_proper _ _ _ _ Ha Hb). by apply Hcover. }
  split; [done|].
  unfold generateOptimizedGrid. rewrite Hrun.
  by rewrite (extras_already_seen extraPoints (grid, seen) Hseen).
Qed.

(** X12. With the script's constants the 14 extra points add nothing: each has
    the key of a point the two loops produce, so the array returned is the
    one the loops built. *)
Theorem extra_points_add_nothing (fuel : nat) :
  (242 <= fuel)%nat ->
  exists grid seen,
    lat_loop fuel fuel latStart [] ∅ = Some (grid, seen) /\
    (forall e, e ∈ extraPoints -> coord_key e ∈ seen) /\
    generateOptimizedGrid fuel = Some grid.
Proof. apply extras_change_nothing. Qed.

Lemma extra_points_add_nothing_witness :
  exists grid seen,
    lat_loop 242 242 latStart [] ∅ = Some (grid, seen) /\
    (forall e, e ∈ extraPoints -> coord_key e ∈ seen) /\
    generateOptimizedGrid 242 = Some grid.
Proof. apply (extra_points_add_nothing 242). lia. Defined.

(* ===================================================================== *)
(** * Keys tell coordinates apart *)
(* ===================================================================== *)

Lemma digits_lack (c : ascii) (s : string) (d : Decimal.uint) :
  uint_of_char c (Some Decimal.Nil) = None ->
  NilEmpty.uint_of_string s = Some d -> lacks c s.
Proof.
  intros Hc. revert d. induction s as [|a s IH]; intros d Hs; cbn; [done|].
  cbn in Hs. destruct (NilEmpty.uint_of_string s) as [d'|] eqn:Hd.
  - split; [|by eapply IH]. intros ->.
    assert (forall d1 d2, uint_of_char c (Some d1) = None -> uint_of_char c (Some d2) = None)
      as Hany.
    { intros d1 d2. unfold uint_of_char.
      destruct c as [[] [] [] [] [] [] [] []]; congruence. }
    rewrite (Hany _ d' Hc) in Hs. discriminate.
  - unfold uint_of_char in Hs. discriminate.
Qed.

Lemma show_N_digits (z : Z) :
  NilEmpty.uint_of_string (show_N z) = Some (N.to_uint (Z.to_N z)).
Proof.
  unfold show_N. set (d := N.to_uint (Z.to_N z)).
  assert (d <> Decimal.Nil) as Hd.
  { unfold d. destruct (Z.to_N z) as [|p]; cbn; [discriminate|].
    apply DecimalPos.Unsigned.to_uint_nonnil. }
  destruct d; try done; apply NilEmpty.usu.
Qed.

Lemma show_N_value (z : Z) : digits_value (show_N z) = Some (Z.to_N z).
Proof.
  unfold digits_value. rewrite show_N_digits. cbn.
  by rewrite DecimalN.Unsigned.of_to.
Qed.

Lemma show_N_lacks (c : ascii) (z : Z) :
  uint_of_char c (Some Decimal.Nil) = None -> lacks c (show_N z).
Proof. intros Hc. eapply digits_lack; [done|]. apply show_N_digits. Qed.

Lemma show_N_nonempty (z : Z) : exists a rest, show_N z = String a rest.
Proof.
  unfold show_N. destruct (N.to_uint (Z.to_N z)); cbn; by eexists _, _.
Qed.

Lemma zeros_cons (n : nat) :
  String.concat "" (repeat "0"%string (S n))
  = String "0" (String.concat "" (repeat "0"%string n)).
Proof. destruct n; reflexivity. Qed.

Lemma padStart0_digits (width : nat) (s : string) (d : Decimal.uint) :
  NilEmpty.uint_of_string s = Some d ->
  exists d', NilEmpty.uint_of_string (padStart0 width s) = Some d' /\
             N.of_uint d' = N.of_uint d.
Proof.
  intros Hs. unfold padStart0.
  induction (width - String.length s)%nat as [|n (d' & Hd' & Hv)].
  - by exists d.
  - rewrite zeros_cons. exists (Decimal.D0 d'). split; [|exact Hv].
    transitivity (uint_of_char "0"
                    (NilEmpty.uint_of_string (String.concat "" (repeat "0"%string n) +:+ s)));
      [reflexivity|].
    by rewrite Hd'.
Qed.

Lemma padStart0_value (width : nat) (z : Z) :
  digits_value (padStart0 width (show_N z)) = Some (Z.to_N z).
Proof.
  destruct (padStart0_digits width _ _ (show_N_digits z)) as (d' & Hd' & Hv).
  unfold digits_value. rewrite Hd'. cbn. by rewrite Hv, DecimalN.Unsigned.of_to.
Qed.

Lemma padStart0_lacks (c : ascii) (width : nat) (z : Z) :
  uint_of_char c (Some Decimal.Nil) = None -> lacks c (padStart0 width (show_N z)).
Proof.
  intros Hc. destruct (padStart0_digits width _ _ (show_N_digits z)) as (d' & Hd' & _).
  by eapply digits_lack.
Qed.

Lemma lacks_app (c : ascii) (s t : string) : lacks c s -> lacks c t -> lacks c (s +:+ t).
Proof. induction s as [|a s IH]; cbn; [done|]. intros [Ha Hs] Ht. split; [done|by apply IH]. Qed.

Lemma split_at (c : ascii) (s1 s2 r1 r2 : string) :
  lacks c s1 -> lacks c s2 ->
  s1 +:+ String c r1 = s2 +:+ String c r2 -> s1 = s2 /\ r1 = r2.
Proof.
  revert s2. induction s1 as [|a s1 IH]; intros [|b s2] H1 H2 Heq; cbn in *.
  - by injection Heq as ->.
  - injection Heq as <- _. by destruct H2.
  - injection Heq as -> _. by destruct H1.
  - injection Heq as <- Heq. destruct H1 as [_ H1], H2 as [_ H2].
    destruct (IH s2 H1 H2 Heq) as [-> ->]. done.
Qed.

Lemma floor_plus_half (x : Q) :
  four_decimals x -> Qfloor (x * 10000 + (1 # 2)) = Qfloor (x * 10000).
Proof.
  unfold four_decimals. intros H.
  pose proof (Qfloor_le (x * 10000)%Q). pose proof (Qlt_floor (x * 10000)%Q).
  apply Qfloor_unique.
  - lra.
  - rewrite inject_Z_plus. change (inject_Z 1) with 1%Q. lra.
Qed.

Lemma four_decimals_opp (x : Q) : four_decimals x -> four_decimals (- x).
Proof.
  unfold four_decimals. intros H.
  assert ((- x * 10000 == inject_Z (- Qfloor (x * 10000)))%Q) as Heq.
  { rewrite inject_Z_opp, H. ring. }
  by rewrite (Qfloor_comp _ _ Heq), Qfloor_Z, Heq.
Qed.

Lemma digits_equal (a b : Z) :
  (0 <= a)%Z -> (0 <= b)%Z ->
  show_N (a / 10000) +:+ String "." (padStart0 4 (show_N (a mod 10000))) =
  show_N (b / 10000) +:+ String "." (padStart0 4 (show_N (b mod 10000))) ->
  a = b.
Proof.
  intros Ha Hb Heq.
  apply (split_at "."%char) in Heq as [Hint Hfrac]; try (by apply show_N_lacks).
  apply (f_equal digits_value) in Hint, Hfrac.
  rewrite !show_N_value in Hint. rewrite !padStart0_value in Hfrac.
  injection Hint as Hint. injection Hfrac as Hfrac.
  apply Z2N.inj in Hint; [|apply Z.div_pos; lia..].
  apply Z2N.inj in Hfrac; [|apply Z.mod_pos_bound; lia..].
  rewrite (Z.div_mod a 10000), (Z.div_mod b 10000) by lia. by rewrite Hint, Hfrac.
Qed.

Lemma toFixed4_nonneg (x : Q) :
  (0 <= x)%Q ->
  toFixed4 x =
  show_N (Qfloor (x * 10000 + (1 # 2)) / 10000) +:+
  String "." (padStart0 4 (show_N (Qfloor (x * 10000 + (1 # 2)) mod 10000))).
Proof. intros H. unfold toFixed4. by rewrite (Qle_bool_true 0 x H). Qed.

Lemma toFixed4_negative (x : Q) :
  (x < 0)%Q ->
  toFixed4 x =
  String "-" (show_N (Qfloor (- x * 10000 + (1 # 2)) / 10000) +:+
              String "." (padStart0 4 (show_N (Qfloor (- x * 10000 + (1 # 2)) mod 10000)))).
Proof. intros H. unfold toFixed4. by rewrite (Qle_bool_false 0 x H). Qed.

Lemma digit_first (z : Z) (t u : string) : show_N z +:+ t <> String "-" u.
Proof.
  destruct (show_N_nonempty z) as (a & rest & Hs).
  pose proof (show_N_lacks "-"%char z eq_refl) as Hl.
  rewrite Hs in Hl |- *. cbn. intros Heq. injection Heq as -> _. by destruct Hl.
Qed.

Lemma string_tail_eq (a : ascii) (s t : string) : String a s = String a t -> s = t.
Proof. intros H. by injection H. Qed.

Lemma toFixed4_injective (x y : Q) :
  four_decimals x -> four_decimals y -> toFixed4 x = toFixed4 y -> (x == y)%Q.
Proof.
  intros Hx Hy.
  assert (forall z : Q, (0 <= z)%Q -> (0 <= Qfloor (z * 10000 + (1 # 2)))%Z) as Hpos.
  { intros z Hz. change 0%Z with (Qfloor 0). apply Qfloor_resp_le. lra. }
  assert (forall z : Q, four_decimals z ->
            (z * 10000 == inject_Z (Qfloor (z * 10000 + (1 # 2))))%Q) as Hval.
  { intros z Hz. rewrite (floor_plus_half z Hz). unfold four_decimals in Hz. by rewrite Hz. }
  destruct (Qlt_le_dec x 0) as [Hnx|Hpx]; destruct (Qlt_le_dec y 0) as [Hny|Hpy].
  - rewrite (toFixed4_negative x Hnx), (toFixed4_negative y Hny).
    intros Heq. apply string_tail_eq in Heq.
    apply digits_equal in Heq; [|apply Hpos; lra..].
    pose proof (Hval (- x)%Q (four_decimals_opp x Hx)) as Ex.
    pose proof (Hval (- y)%Q (four_decimals_opp y Hy)) as Ey.
    rewrite Heq in Ex. lra.
  - rewrite (toFixed4_negative x Hnx), (toFixed4_nonneg y Hpy).
    intros Heq. symmetry in Heq. by apply digit_first in Heq.
  - rewrite (toFixed4_nonneg x Hpx), (toFixed4_negative y Hny).
    intros Heq. by apply digit_first in Heq.
  - rewrite (toFixed4_nonneg x Hpx), (toFixed4_nonneg y Hpy).
    intros Heq. apply digits_equal in Heq; [|by apply Hpos..].
    pose proof (Hval x Hx) as Ex. pose proof (Hval y Hy) as Ey.
    rewrite Heq in Ex. lra.
Qed.

Lemma toFixed4_lacks_comma (x : Q) : lacks ","%char (toFixed4 x).
Proof.
  assert (forall n : Z, lacks ","%char
            (show_N (n / 10000) +:+ String "." (padStart0 4 (show_N (n mod 10000))))) as H.
  { intros n. apply lacks_app; [by apply show_N_lacks|].
    split; [discriminate|]. by apply padStart0_lacks. }
  destruct (Qlt_le_dec x 0) as [Hnx|Hpx].
  - rewrite (toFixed4_negative x Hnx). split; [discriminate|]. apply H.
  - rewrite (toFixed4_nonneg x Hpx). apply H.
Qed.

Lemma keys_apart (p q : coord) :
  four_decimals p.1 -> four_decimals p.2 -> four_decimals q.1 -> four_decimals q.2 ->
  coord_key p = coord_key q -> (p.1 == q.1)%Q /\ (p.2 == q.2)%Q.
Proof.
  intros Hp1 Hp2 Hq1 Hq2 Heq. unfold coord_key in Heq.
  apply (split_at ","%char) in Heq as [H1 H2]; try apply toFixed4_lacks_comma.
  split; by apply toFixed4_injective.
Qed.

(** X13. Two coordinate pairs whose numbers have at most four decimals get the
    same key only when they are the same pair: the set of keys tells the
    points of the grid apart. *)
Theorem keys_tell_points_apart (p q : coord) :
  four_decimals p.1 -> four_decimals p.2 -> four_decimals q.1 -> four_decimals q.2 ->
  coord_key p = coord_key q -> (p.1 == q.1)%Q /\ (p.2 == q.2)%Q.
Proof. apply keys_apart. Qed.

Lemma keys_tell_points_apart_witness :
  ((24.5, -100)%Q.1 == (49 # 2, -100)%Q.1)%Q /\ ((24.5, -100)%Q.2 == (49 # 2, -100)%Q.2)%Q.
Proof.
  apply (keys_tell_points_apart (24.5, -100)%Q (49 # 2, -100)%Q);
    vm_compute; reflexivity.
Defined.

(* ===================================================================== *)
(** * The grid is the lattice *)
(* ===================================================================== *)

Lemma four_decimals_proper (x y : Q) : (x == y)%Q -> four_decimals x -> four_decimals y.
Proof.
  unfold four_decimals. intros Heq H.
  assert ((y * 10000 == x * 10000)%Q) as Hm by (by rewrite Heq).
  by rewrite (Qfloor_comp _ _ Hm), H, Heq.
Qed.

Lemma four_decimals_round4 (x : Q) : four_decimals x -> four_decimals (round4 x).
Proof. intros H. apply (four_decimals_proper x); [|done]. symmetry. by apply round4_exact. Qed.

Lemma remaining_past (x hi : Q) : (hi < x)%Q -> remaining x hi = 0%nat.
Proof.
  intros H. unfold remaining.
  assert ((hi - x) / step < 0)%Q as Hneg.
  { apply Qlt_shift_div_r; [reflexivity|]. lra. }
  pose proof (Qfloor_le ((hi - x) / step)) as Hfl.
  assert (inject_Z (Qfloor ((hi - x) / step)) < inject_Z 0)%Q as Hlt
    by (change (inject_Z 0) with 0%Q; lra).
  rewrite <- Zlt_Qlt in Hlt. lia.
Qed.

Lemma key_is_new (grid : list coord) (seen : gset string) (lat lon : Q) :
  four_decimals lat -> four_decimals lon ->
  grid_inv grid seen -> before_position lat lon grid ->
  coord_key (lat, lon) ∉ seen.
Proof.
  intros Hlat Hlon [_ Hseen] Hbefore Hin.
  apply Hseen, list_elem_of_fmap in Hin as (p & Hkey & Hp).
  destruct (Hbefore p Hp) as (H1 & H2 & Hpos).
  destruct (keys_apart (lat, lon) p Hlat Hlon H1 H2 Hkey) as [Ha Hb]. cbn [fst snd] in *.
  destruct Hpos as [Hlt|[_ Hlt]]; lra.
Qed.

Lemma lon_loop_fresh (grid : list coord) :
  forall (fuel : nat) (lat lon : Q) (row : list coord) (seen : gset string) row' seen',
    four_decimals lat -> four_decimals lon ->
    grid_inv (grid ++ row) seen -> before_position lat lon (grid ++ row) ->
    lon_loop fuel lat lon row seen = Some (row', seen') ->
    exists new,
      row' = row ++ new /\ length new = remaining lon lonEnd /\
      (forall k p, new !! k = Some p ->
         four_decimals p.1 /\ four_decimals p.2 /\
         (p.1 == lat)%Q /\ (p.2 == lon + inject_Z (Z.of_nat k) * step)%Q).
Proof.
  induction fuel as [|fuel IH]; intros lat lon row seen row' seen' Hlat Hlon Hinv Hbefore H;
    [done|].
  cbn [lon_loop] in H. destruct (Qle_bool lon lonEnd) eqn:Hle.
  - apply Qle_bool_iff in Hle. cbn zeta in H.
    destruct (decide (coord_key (lat, lon) ∈ seen)) as [Hin|Hnew].
    { exfalso. by apply (key_is_new (grid ++ row) seen lat lon). }
    pose proof (round4_exact lat Hlat) as Rlat. pose proof (round4_exact lon Hlon) as Rlon.
    apply IH in H as (new & -> & Hlen & Hnew'); try done.
    + exists ((round4 lat, round4 lon) :: new). split; [by rewrite <- app_assoc|].
      split; [cbn; by rewrite Hlen, remaining_step|].
      intros [|k] p Hk; cbn in Hk.
      * injection Hk as <-. cbn [fst snd].
        split; [by apply four_decimals_round4|]. split; [by apply four_decimals_round4|].
        split; [done|]. rewrite Rlon. cbn. ring.
      * destruct (Hnew' k p Hk) as (H1 & H2 & H3 & H4).
        split; [done|]. split; [done|]. split; [done|]. by rewrite H4, steps_succ.
    + by apply four_decimals_step.
    + rewrite app_assoc. apply grid_inv_push; [by apply coord_key_rounded|done..].
    + intros p Hp. rewrite app_assoc in Hp. apply elem_of_app in Hp as [Hp|Hp].
      * destruct (Hbefore p Hp) as (H1 & H2 & Hpos). split; [done|]. split; [done|].
        destruct Hpos as [Hlt|[Heq Hlt]]; [by left|]. right. split; [done|].
        rewrite Qred_correct. unfold step. lra.
      * apply list_elem_of_singleton in Hp as ->. cbn [fst snd].
        split; [by apply four_decimals_round4|]. split; [by apply four_decimals_round4|].
        right. split; [done|]. rewrite Rlon, Qred_correct. unfold step. lra.
  - injection H as <- <-. exists []. rewrite app_nil_r. split; [done|]. split.
    + rewrite remaining_past; [done|].
      destruct (Qlt_le_dec lonEnd lon) as [|Hc]; [done|].
      apply Qle_bool_iff in Hc. congruence.
    + intros k p Hk. by rewrite lookup_nil in Hk.
Qed.

Lemma insert_at_end (p : coord) (sorted : list coord) :
  (forall q, q ∈ sorted -> (q.2 <= p.2)%Q) -> insert_by_lon p sorted = sorted ++ [p].
Proof.
  induction sorted as [|q rest IH]; intros Hall; cbn; [done|].
  rewrite (Qle_bool_true (snd q) (snd p)) by (apply Hall; by left).
  rewrite IH; [done|]. intros q' Hq'. apply Hall. by right.
Qed.

Lemma sort_row_ascending (row : list coord) : ascending_lon row -> sort_row row = row.
Proof.
  unfold sort_row. intros Hasc.
  assert (forall acc,
            (forall q p, q ∈ acc -> p ∈ row -> (q.2 <= p.2)%Q) ->
            fold_left (fun sorted p => insert_by_lon p sorted) row acc = acc ++ row) as H.
  { induction row as [|p row IH]; intros acc Hacc; cbn [fold_left].
    - by rewrite app_nil_r.
    - rewrite insert_at_end by (intros q Hq; apply Hacc; [done|by left]).
      rewrite IH.
      + by rewrite <- app_assoc.
      + intros i j a b Hij Ha Hb. apply (Hasc (S i) (S j) a b); [lia|done..].
      + intros q p' Hq Hp'. apply elem_of_app in Hq as [Hq|Hq].
        * apply Hacc; [done|by right].
        * apply list_elem_of_singleton in Hq as ->.
          apply list_elem_of_lookup in Hp' as [j Hj].
          apply (Hasc 0%nat (S j) p p'); [lia|done..]. }
  rewrite H; [done|]. intros q p Hq. by apply elem_of_nil in Hq.
Qed.

Lemma lat_loop_fresh :
  forall (fuel inner : nat) (lat : Q) (grid : list coord) (seen : gset string) grid' seen',
    four_decimals lat -> grid_inv grid seen ->
    (forall p, p ∈ grid -> four_decimals p.1 /\ four_decimals p.2 /\ (p.1 < lat)%Q) ->
    lat_loop fuel inner lat grid seen = Some (grid', seen') ->
    exists new,
      grid' = grid ++ new /\
      length new = (remaining lat latEnd * remaining lonStart lonEnd)%nat /\
      (forall i j p,
         (j < remaining lonStart lonEnd)%nat ->
         new !! (i * remaining lonStart lonEnd + j)%nat = Some p ->
         (p.1 == lat + inject_Z (Z.of_nat i) * step)%Q /\
         (p.2 == lonStart + inject_Z (Z.of_nat j) * step)%Q).
Proof.
  induction fuel as [|fuel IH]; intros inner lat grid seen grid' seen' Hlat Hinv Hbelow H;
    [done|].
  cbn [lat_loop] in H. destruct (Qle_bool lat latEnd) eqn:Hle.
  - apply Qle_bool_iff in Hle.
    destruct (lon_loop inner lat lonStart [] seen) as [[row seen1]|] eqn:Hrow; [|done].
    destruct (lon_loop_fresh grid inner lat lonStart [] seen row seen1 Hlat
                (four_decimals_integer (-126)))
      as (new & Hnew & Hlen & Hat); [by rewrite app_nil_r| |done|].
    { intros p Hp. rewrite app_nil_r in Hp. destruct (Hbelow p Hp) as (H1 & H2 & H3).
      split; [done|]. split; [done|]. by left. }
    cbn [app] in Hnew. subst new.
    assert (sort_row row = row) as Hsorted.
    { apply sort_row_ascending. intros i j p q Hij Hp Hq.
      destruct (Hat i p Hp) as (_ & _ & _ & Ep). destruct (Hat j q Hq) as (_ & _ & _ & Eq).
      rewrite Ep, Eq.
      assert (inject_Z (Z.of_nat i) <= inject_Z (Z.of_nat j))%Q as Hq'
        by (rewrite <- Zle_Qle; lia).
      unfold step. lra. }
    rewrite Hsorted in H.
    apply IH in H as (new' & -> & Hlen' & Hat').
    + exists (row ++ new'). split; [by rewrite app_assoc|]. split.
      * rewrite length_app, Hlen, Hlen', <- (remaining_step lat latEnd Hle).
        set (W := remaining lonStart lonEnd). set (R := remaining _ latEnd).
        clearbody W R. lia.
      * intros [|i] j p Hj Hp.
        -- cbn [Nat.mul Nat.add] in Hp. unfold coord in *. rewrite lookup_app_l in Hp by lia.
           destruct (Hat j p Hp) as (_ & _ & E1 & E2). split; [|done].
           rewrite E1. cbn. ring.
        -- unfold coord in *. set (W := remaining lonStart lonEnd) in *. clearbody W.
           rewrite lookup_app_r in Hp by (rewrite Hlen; lia).
           replace (S i * W + j - length row)%nat with (i * W + j)%nat in Hp
             by (rewrite Hlen; lia).
           destruct (Hat' i j p Hj Hp) as [E1 E2]. split; [|done].
           by rewrite E1, steps_succ.
    + by apply four_decimals_step.
    + apply (lon_loop_inv grid inner lat lonStart [] seen row seen1 Hlat
               (four_decimals_integer (-126))); [by rewrite app_nil_r|done].
    + intros p Hp. apply elem_of_app in Hp as [Hp|Hp].
      * destruct (Hbelow p Hp) as (H1 & H2 & H3). split; [done|]. split; [done|].
        rewrite Qred_correct. unfold step. lra.
      * apply list_elem_of_lookup in Hp as [k Hk].
        destruct (Hat k p Hk) as (H1 & H2 & E1 & _). split; [done|]. split; [done|].
        rewrite Qred_correct, E1. unfold step. lra.
  - injection H as <- <-. exists []. rewrite app_nil_r. split; [done|]. split.
    + rewrite remaining_past; [done|].
      destruct (Qlt_le_dec latEnd lat) as [|Hc]; [done|].
      apply Qle_bool_iff in Hc. congruence.
    + intros i j p _ Hp. by rewrite lookup_nil in Hp.
Qed.

Lemma lattice_built (fuel : nat) :
  (242 <= fuel)%nat ->
  exists grid,
    generateOptimizedGrid fuel = Some grid /\
    length grid = (105 * 241)%nat /\
    forall i j,
      (i < 105)%nat -> (j < 241)%nat ->
      exists p,
        grid !! (i * 241 + j)%nat = Some p /\
        (p.1 == 24 + inject_Z (Z.of_nat i) * 0.25)%Q /\
        (p.2 == -126 + inject_Z (Z.of_nat j) * 0.25)%Q.
Proof.
  intros Hfuel.
  destruct (extras_change_nothing fuel Hfuel) as (grid & seen & Hrun & _ & Hgen).
  exists grid. split; [done|].
  assert (remaining lonStart lonEnd = 241%nat) as Hlon by (vm_compute; reflexivity).
  assert (remaining latStart latEnd = 105%nat) as Hlat by (vm_compute; reflexivity).
  destruct (lat_loop_fresh fuel fuel latStart [] ∅ grid seen (four_decimals_integer 24))
    as (new & Hnew & Hlen & Hat); [| |done|].
  { split; [apply NoDup_nil_2|]. intros k. cbn. rewrite elem_of_empty, elem_of_nil. done. }
  { intros p Hp. by apply elem_of_nil in Hp. }
  cbn [app] in Hnew. subst new. rewrite Hlon, Hlat in Hlen. rewrite Hlon in Hat.
  split; [done|]. intros i j Hi Hj.
  destruct (lookup_lt_is_Some_2 grid (i * 241 + j)) as [p Hp]; [rewrite Hlen; nia|].
  exists p. split; [done|]. exact (Hat i j p Hj Hp).
Qed.

(** X14. With fuel for the 241 longitudes of a row, the generator returns the
    lattice itself, row by row: 105 rows of 241 points, 25305 in all, the
    point at row [i] and column [j] being (24 + i/4, -126 + j/4); the
    rounding changes no coordinate, the sort moves no point, and no point is
    dropped as a duplicate. *)
Theorem grid_is_the_lattice (fuel : nat) :
  (242 <= fuel)%nat ->
  exists grid,
    generateOptimizedGrid fuel = Some grid /\
    length grid = (105 * 241)%nat /\
    forall i j,
      (i < 105)%nat -> (j < 241)%nat ->
      exists p,
        grid !! (i * 241 + j)%nat = Some p /\
        (p.1 == 24 + inject_Z (Z.of_nat i) * 0.25)%Q /\
        (p.2 == -126 + inject_Z (Z.of_nat j) * 0.25)%Q.
Proof. apply lattice_built. Qed.

Lemma grid_is_the_lattice_witness :
  exists grid,
    generateOptimizedGrid 300 = Some grid /\
    length grid = (105 * 241)%nat /\
    forall i j,
      (i < 105)%nat -> (j < 241)%nat ->
      exists p,
        grid !! (i * 241 + j)%nat = Some p /\
        (p.1 == 24 + inject_Z (Z.of_nat i) * 0.25)%Q /\
        (p.2 == -126 + inject_Z (Z.of_nat j) * 0.25)%Q.
Proof. apply (grid_is_the_lattice 300). lia. Defined.

(* ===================================================================== *)
(** * The startup sequence *)
(* ===================================================================== *)



